(** * rt_hello: two periodic tasks on POSIX threads (src/main.c)

    A shallow embedding of [src/main.c] and the properties of its
    natural-language specification.

    - [task_params_t], [sleep_ms], [task_fn]: the thread body, written in a
      small state-and-trace monad over the descriptor [*p] the thread reads.
    - [Driver]: [main] as a transition system whose scheduler interleaves the
      main thread with the two task threads.

    C [int] is the 32-bit two's-complement integer of the build target.  The
    C standard leaves signed overflow undefined; the model writes out what the
    target does, which is to wrap around. *)

From Stdlib Require Import ZArith List String Lia Bool.
Import ListNotations.
Open Scope string_scope.
Open Scope list_scope.
Open Scope Z_scope.

Set Implicit Arguments.

(* ================================================================== *)
(** ** Machine integers *)

Definition INT_MAX : Z := 2147483647.
Definition INT_MIN : Z := -2147483648.

Definition in_int (z : Z) : Prop := INT_MIN <= z <= INT_MAX.

(** Reduction of a mathematical integer into the range of [int]. *)
Definition wrap_int (z : Z) : Z := (z + 2147483648) mod 4294967296 - 2147483648.

(** [i++] on an [int]. *)
Definition int_incr (i : Z) : Z := wrap_int (i + 1).

(* ================================================================== *)
(** ** Data model *)

(** [typedef struct { const char* name; int period_ms; int iterations; }
    task_params_t;] *)
Record task_params_t : Type := mk_task_params {
  name : string;
  period_ms : Z;
  iterations : Z
}.

(** [struct timespec], as [sleep_ms] fills it. *)
Record timespec : Type := mk_timespec {
  tv_sec : Z;
  tv_nsec : Z
}.

(** The length of the interval a [timespec] denotes, in nanoseconds. *)
Definition timespec_ns (ts : timespec) : Z :=
  tv_sec ts * 1000000000 + tv_nsec ts.

(** What a thread does that another party can observe or that takes time. *)
Inductive action : Type :=
| Busy (spins : Z)                         (* the empty volatile counting loop *)
| PrintfIteration (nm : string) (i : Z)    (* printf("[%s] iteration %d\n", ...) *)
| PrintfDone (nm : string)                 (* printf("[%s] done\n", ...) *)
| Fflush                                   (* fflush(stdout) *)
| Nanosleep (ts : timespec)                (* nanosleep(&ts, NULL) *)
| Puts (s : string)                        (* puts(s) *)
| Perror (s : string).                     (* perror(s) *)

(** The two states of a task execution (spec, section 3). *)
Inductive exec_state : Type := Running | Completed.

(* ================================================================== *)
(** ** The thread monad

    A computation reads and may write the descriptor the thread was handed,
    and appends to the trace of actions. *)

Definition M (A : Type) : Type :=
  task_params_t -> A * task_params_t * list action.

Definition ret {A : Type} (a : A) : M A := fun m => (a, m, []).

Definition bind {A B : Type} (c : M A) (k : A -> M B) : M B :=
  fun m =>
    let r1 := c m in
    let r2 := k (fst (fst r1)) (snd (fst r1)) in
    (fst (fst r2), snd (fst r2), snd r1 ++ snd r2).

Definition load {A : Type} (field : task_params_t -> A) : M A :=
  fun m => (field m, m, []).

Definition emit (a : action) : M unit := fun m => (tt, m, [a]).

Declare Scope thread_scope.
Delimit Scope thread_scope with thread.
Notation "x <- c ;; k" := (bind c (fun x => k))
  (at level 61, c at next level, right associativity) : thread_scope.
Notation "c ;; k" := (bind c (fun _ => k))
  (at level 61, right associativity) : thread_scope.
Open Scope thread_scope.

Definition value {A : Type} (r : A * task_params_t * list action) : A :=
  fst (fst r).
Definition memory {A : Type} (r : A * task_params_t * list action)
  : task_params_t := snd (fst r).
Definition trace {A : Type} (r : A * task_params_t * list action)
  : list action := snd r.

(* ================================================================== *)
(** ** The thread body *)

(** [static void sleep_ms(int ms)]: C division and remainder truncate
    towards zero. *)
Definition sleep_ms (ms : Z) : M unit :=
  let ts := {| tv_sec := Z.quot ms 1000;
               tv_nsec := Z.rem ms 1000 * 1000000 |} in
  emit (Nanosleep ts).

(** [for (volatile int k = 0; k < 100000; ++k) { }] *)
Definition BUSY_SPINS : Z := 100000.
Definition busy_work : M unit := emit (Busy BUSY_SPINS).

(** The [for] loop of [task_fn], entered at its condition with counter [i].
    [fuel] bounds the number of times the condition is evaluated; the result
    is [true] when the loop has been left and [false] when the fuel ran out
    with the thread still inside it. *)
Fixpoint for_loop (fuel : nat) (i : Z) : M bool :=
  match fuel with
  | O => ret false
  | S fuel' =>
      n <- load iterations ;;
      if i <=? n then
        busy_work ;;
        nm <- load name ;;
        emit (PrintfIteration nm i) ;;
        emit Fflush ;;
        ms <- load period_ms ;;
        sleep_ms ms ;;
        for_loop fuel' (int_incr i)
      else ret true
  end.

(** [static void* task_fn(void* arg)] *)
Definition task_fn (fuel : nat) : M exec_state :=
  exited <- for_loop fuel 1 ;;
  if exited then
    nm <- load name ;;
    emit (PrintfDone nm) ;;
    emit Fflush ;;
    ret Completed
  else ret Running.

(* ================================================================== *)
(** ** Events: what reaches the output sink *)

Definition is_iteration (a : action) : bool :=
  match a with PrintfIteration _ _ => true | _ => false end.

Definition is_completion (a : action) : bool :=
  match a with PrintfDone _ => true | _ => false end.

Definition is_event (a : action) : bool := is_iteration a || is_completion a.

Definition events (tr : list action) : list action := filter is_event tr.

Definition iteration_events (tr : list action) : list action :=
  filter is_iteration tr.

Definition completion_events (tr : list action) : list action :=
  filter is_completion tr.

Fixpoint iteration_labels (tr : list action) : list Z :=
  match tr with
  | [] => []
  | PrintfIteration _ i :: tr' => i :: iteration_labels tr'
  | _ :: tr' => iteration_labels tr'
  end.

(** [seqZ i k] is [i; i+1; ...; i+k-1]. *)
Fixpoint seqZ (i : Z) (k : nat) : list Z :=
  match k with
  | O => []
  | S k' => i :: seqZ (i + 1) k'
  end.

(** One pass through the loop body with counter [i]. *)
Definition iteration (p : task_params_t) (i : Z) : list action :=
  [ Busy BUSY_SPINS;
    PrintfIteration (name p) i;
    Fflush;
    Nanosleep {| tv_sec := Z.quot (period_ms p) 1000;
                 tv_nsec := Z.rem (period_ms p) 1000 * 1000000 |} ].

Definition completion (p : task_params_t) : list action :=
  [ PrintfDone (name p); Fflush ].

(** The requests [nanosleep] accepts: a second count that is not negative and
    a nanosecond count from 0 to 999999999.  Any other request makes it
    return at once with [EINVAL]; [sleep_ms] does not look at the result. *)
Definition timespec_valid (ts : timespec) : bool :=
  (0 <=? tv_sec ts) && (0 <=? tv_nsec ts) && (tv_nsec ts <=? 999999999).

(** The sleep a trace asks for in all, in nanoseconds. *)
Fixpoint total_sleep_ns (tr : list action) : Z :=
  match tr with
  | [] => 0
  | Nanosleep ts :: tr' => timespec_ns ts + total_sleep_ns tr'
  | _ :: tr' => total_sleep_ns tr'
  end.

(** What an action of the thread started on [p] can be. *)
Definition thread_action (p : task_params_t) (a : action) : Prop :=
  match a with
  | Busy spins => spins = BUSY_SPINS
  | PrintfIteration nm i => nm = name p /\ in_int i /\ i <= iterations p
  | PrintfDone nm => nm = name p
  | Fflush => True
  | Nanosleep ts => timespec_ns ts = period_ms p * 1000000
  | Puts _ => False
  | Perror _ => False
  end.

(** A descriptor with the largest budget an [int] can hold. *)
Definition max_budget_task : task_params_t := mk_task_params "T" 0 INT_MAX.

(* ================================================================== *)
(** ** Launching a thread

    A task whose budget is below [INT_MAX] leaves its loop after
    [iterations + 1] evaluations of the condition (one evaluation when the
    budget is not positive), so this much fuel runs its body to the end. *)

Definition enough_fuel (p : task_params_t) : nat := S (Z.to_nat (iterations p)).

(** Everything the thread started on [p] does, from its first action to its
    return. *)
Definition thread_body (p : task_params_t) : list action :=
  trace (task_fn (enough_fuel p) p).

Inductive launch_result : Type :=
| Launched (todo : list action)    (* pthread_create returned 0 *)
| LaunchFailure.                   (* pthread_create returned an error number *)

(** [pthread_create(&t, NULL, task_fn, &p)].  Whether the system can start a
    thread is the environment's choice [os_ok]; the descriptor is not
    inspected. *)
Definition pthread_create (os_ok : bool) (p : task_params_t) : launch_result :=
  if os_ok then Launched (thread_body p) else LaunchFailure.

Definition rejected (r : launch_result) : bool :=
  match r with LaunchFailure => true | Launched _ => false end.

Definition launch_events (r : launch_result) : list action :=
  match r with LaunchFailure => [] | Launched todo => events todo end.

(* ================================================================== *)
(** ** The driver: [main] *)

Module Driver.

(** [task_params_t A = { "TASK_A", 10, 5 };] and
    [task_params_t B = { "TASK_B", 16, 5 };] *)
Definition A : task_params_t := mk_task_params "TASK_A" 10 5.
Definition B : task_params_t := mk_task_params "TASK_B" 16 5.

Inductive tid : Type := Main | ThreadA | ThreadB.

Definition tid_eqb (x y : tid) : bool :=
  match x, y with
  | Main, Main | ThreadA, ThreadA | ThreadB, ThreadB => true
  | _, _ => false
  end.

(** Where the main thread stands. *)
Inductive main_pc : Type :=
| AtCreateA            (* before pthread_create(&ta, ...) *)
| AtPerrorA            (* the first create failed: before perror *)
| AtCreateB            (* before pthread_create(&tb, ...) *)
| AtPerrorB            (* the second create failed: before perror *)
| AtJoinA              (* before pthread_join(ta, NULL) *)
| AtJoinB              (* before pthread_join(tb, NULL) *)
| AtPuts               (* before puts("SELF_TEST_FAIL") *)
| AtReturn (code : Z)  (* before return code *)
| Exited (code : Z).   (* the process is gone *)

Record world : Type := mk_world {
  pc : main_pc;
  thread_a : option (list action);   (* [None]: not started; else what is left *)
  thread_b : option (list action);
  creates : list (task_params_t * bool);  (* each pthread_create call, with
                                             whether it succeeded *)
  log : list (tid * action)          (* what was done so far, oldest first *)
}.

Definition init : world :=
  {| pc := AtCreateA; thread_a := None; thread_b := None;
     creates := []; log := [] |}.

(** What the scheduler and the system decide at each step: which thread
    moves, and, for a main thread standing at a create, whether that create
    succeeds. *)
Inductive choice : Type :=
| RunMain (os_ok : bool)
| RunA
| RunB.

Definition exited (w : world) : bool :=
  match pc w with Exited _ => true | _ => false end.

Definition main_step (os_ok : bool) (w : world) : option world :=
  match pc w with
  | AtCreateA =>
      match pthread_create os_ok A with
      | Launched todo =>
          Some {| pc := AtCreateB; thread_a := Some todo;
                  thread_b := thread_b w;
                  creates := creates w ++ [(A, true)]; log := log w |}
      | LaunchFailure =>
          Some {| pc := AtPerrorA; thread_a := thread_a w;
                  thread_b := thread_b w;
                  creates := creates w ++ [(A, false)]; log := log w |}
      end
  | AtPerrorA =>
      Some {| pc := AtReturn 1; thread_a := thread_a w;
              thread_b := thread_b w; creates := creates w;
              log := log w ++ [(Main, Perror "pthread_create A")] |}
  | AtCreateB =>
      match pthread_create os_ok B with
      | Launched todo =>
          Some {| pc := AtJoinA; thread_a := thread_a w;
                  thread_b := Some todo;
                  creates := creates w ++ [(B, true)]; log := log w |}
      | LaunchFailure =>
          Some {| pc := AtPerrorB; thread_a := thread_a w;
                  thread_b := thread_b w;
                  creates := creates w ++ [(B, false)]; log := log w |}
      end
  | AtPerrorB =>
      Some {| pc := AtReturn 1; thread_a := thread_a w;
              thread_b := thread_b w; creates := creates w;
              log := log w ++ [(Main, Perror "pthread_create B")] |}
  | AtJoinA =>
      match thread_a w with
      | Some [] =>
          Some {| pc := AtJoinB; thread_a := thread_a w;
                  thread_b := thread_b w; creates := creates w;
                  log := log w |}
      | _ => None                      (* blocked until thread A returns *)
      end
  | AtJoinB =>
      match thread_b w with
      | Some [] =>
          Some {| pc := AtPuts; thread_a := thread_a w;
                  thread_b := thread_b w; creates := creates w;
                  log := log w |}
      | _ => None                      (* blocked until thread B returns *)
      end
  | AtPuts =>
      Some {| pc := AtReturn 0; thread_a := thread_a w;
              thread_b := thread_b w; creates := creates w;
              log := log w ++ [(Main, Puts "SELF_TEST_FAIL")] |}
  | AtReturn code =>
      Some {| pc := Exited code; thread_a := thread_a w;
              thread_b := thread_b w; creates := creates w;
              log := log w |}
  | Exited _ => None
  end.

Definition step (w : world) (c : choice) : option world :=
  if exited w then None
  else
    match c with
    | RunMain os_ok => main_step os_ok w
    | RunA =>
        match thread_a w with
        | Some (a :: todo) =>
            Some {| pc := pc w; thread_a := Some todo;
                    thread_b := thread_b w; creates := creates w;
                    log := log w ++ [(ThreadA, a)] |}
        | _ => None
        end
    | RunB =>
        match thread_b w with
        | Some (b :: todo) =>
            Some {| pc := pc w; thread_a := thread_a w;
                    thread_b := Some todo; creates := creates w;
                    log := log w ++ [(ThreadB, b)] |}
        | _ => None
        end
    end.

(** A run under a schedule; [None] when the schedule asks for a step that is
    not enabled. *)
Fixpoint run (sched : list choice) (w : world) : option world :=
  match sched with
  | [] => Some w
  | c :: sched' =>
      match step w c with
      | Some w' => run sched' w'
      | None => None
      end
  end.

(** [main]: the worlds the program can be in. *)
Definition main (sched : list choice) : option world := run sched init.

(** The part of a log that thread [t] wrote. *)
Definition by_thread (t : tid) (l : list (tid * action)) : list action :=
  map snd (filter (fun e => tid_eqb (fst e) t) l).

Definition launched (w : world) : list task_params_t :=
  map fst (filter snd (creates w)).

(** *** Two schedules *)

(** Both creates succeed; thread A runs to its end, then thread B, then the
    main thread. *)
Definition calm_schedule : list choice :=
  [RunMain true; RunMain true]
  ++ repeat RunA 22 ++ repeat RunB 22 ++ repeat (RunMain true) 4.

Definition calm_world : world :=
  Eval vm_compute in
    match main calm_schedule with Some w => w | None => init end.

(** The first create succeeds and thread A gets through its first pass and
    into the second; then the second create fails. *)
Definition abort_schedule : list choice :=
  [RunMain true; RunA; RunA; RunA; RunA; RunA; RunA;
   RunMain false; RunMain true; RunA; RunMain true].

Definition abort_world : world :=
  Eval vm_compute in
    match main abort_schedule with Some w => w | None => init end.

(** The choices that make the two threads write a given sequence of log
    entries. *)
Definition schedule_of (evs : list (tid * action)) : list choice :=
  map (fun e => match fst e with
                | ThreadA => RunA
                | ThreadB => RunB
                | Main => RunMain true
                end) evs.

(** *** The invariant of the reachable worlds *)

(** A thread's share of the log and what it has left make up its body. *)
Definition thread_ok (t : tid) (body : list action)
  (th : option (list action)) (l : list (tid * action)) : Prop :=
  match th with
  | None => by_thread t l = []
  | Some todo => by_thread t l ++ todo = body
  end.

(** The main thread has written nothing yet. *)
Definition quiet (w : world) : Prop := by_thread Main (log w) = [].

(** The log holds one line of the main thread, [line]. *)
Definition one_line (line : action) (l : list (tid * action)) : Prop :=
  exists before after : list (tid * action),
    l = before ++ (Main, line) :: after /\
    by_thread Main before = [] /\ by_thread Main after = [].

Definition success_end (w : world) : Prop :=
  thread_a w = Some [] /\ thread_b w = Some [] /\
  creates w = [(A, true); (B, true)] /\
  exists evs : list (tid * action),
    log w = evs ++ [(Main, Puts "SELF_TEST_FAIL")] /\
    by_thread Main evs = [].

Definition failure_end_a (w : world) : Prop :=
  thread_a w = None /\ thread_b w = None /\
  creates w = [(A, false)] /\
  one_line (Perror "pthread_create A") (log w).

Definition failure_end_b (w : world) : Prop :=
  thread_a w <> None /\ thread_b w = None /\
  creates w = [(A, true); (B, false)] /\
  one_line (Perror "pthread_create B") (log w).

Definition ending (code : Z) (w : world) : Prop :=
  (code = 0 /\ success_end w) \/
  (code = 1 /\ (failure_end_a w \/ failure_end_b w)).

Definition at_pc (w : world) : Prop :=
  match pc w with
  | AtCreateA =>
      thread_a w = None /\ thread_b w = None /\ creates w = [] /\ quiet w
  | AtPerrorA =>
      thread_a w = None /\ thread_b w = None /\
      creates w = [(A, false)] /\ quiet w
  | AtCreateB =>
      thread_a w <> None /\ thread_b w = None /\
      creates w = [(A, true)] /\ quiet w
  | AtPerrorB =>
      thread_a w <> None /\ thread_b w = None /\
      creates w = [(A, true); (B, false)] /\ quiet w
  | AtJoinA =>
      thread_a w <> None /\ thread_b w <> None /\
      creates w = [(A, true); (B, true)] /\ quiet w
  | AtJoinB =>
      thread_a w = Some [] /\ thread_b w <> None /\
      creates w = [(A, true); (B, true)] /\ quiet w
  | AtPuts =>
      thread_a w = Some [] /\ thread_b w = Some [] /\
      creates w = [(A, true); (B, true)] /\ quiet w
  | AtReturn code => ending code w
  | Exited code => ending code w
  end.

Definition inv (w : world) : Prop :=
  thread_ok ThreadA (thread_body A) (thread_a w) (log w) /\
  thread_ok ThreadB (thread_body B) (thread_b w) (log w) /\
  at_pc w.

(** *** Progress measure: how many steps a world has left at most *)

Definition rank (p : main_pc) : nat :=
  match p with
  | AtCreateA => 6
  | AtCreateB => 5
  | AtJoinA => 4
  | AtJoinB => 3
  | AtPerrorA | AtPerrorB | AtPuts => 2
  | AtReturn _ => 1
  | Exited _ => 0
  end.

Definition left_todo (body : list action) (th : option (list action)) : nat :=
  match th with
  | None => List.length body
  | Some todo => List.length todo
  end.

Definition measure (w : world) : nat :=
  left_todo (thread_body A) (thread_a w)
  + left_todo (thread_body B) (thread_b w)
  + rank (pc w).

End Driver.

(* ================================================================== *)
(** * Properties *)

Example task_fn_three :
  task_fn 4 (mk_task_params "X" 0 3)
  = (Completed, mk_task_params "X" 0 3,
     iteration (mk_task_params "X" 0 3) 1
     ++ iteration (mk_task_params "X" 0 3) 2
     ++ iteration (mk_task_params "X" 0 3) 3
     ++ completion (mk_task_params "X" 0 3)).
Proof. reflexivity. Qed.

Example task_fn_three_short :
  value (task_fn 3 (mk_task_params "X" 0 3)) = Running.
Proof. reflexivity. Qed.

Example main_calm_run :
  option_map (fun w => (Driver.pc w, List.length (Driver.log w)))
    (Driver.main Driver.calm_schedule)
  = Some (Driver.Exited 0, 45%nat).
Proof. vm_compute. reflexivity. Qed.

(* ================================================================== *)
(** ** Machine integers *)

Lemma INT_MAX_val : INT_MAX = 2147483647.
Proof. reflexivity. Qed.

Lemma INT_MIN_val : INT_MIN = -2147483648.
Proof. reflexivity. Qed.

(** Arithmetic side conditions over the bounds of [int]. *)
Ltac int_lia :=
  unfold in_int in *; rewrite ?INT_MIN_val, ?INT_MAX_val in *; lia.

Lemma wrap_int_small (z : Z) : in_int z -> wrap_int z = z.
Proof.
  unfold in_int, wrap_int. rewrite INT_MAX_val, INT_MIN_val. intros H.
  rewrite Z.mod_small; lia.
Qed.

Lemma wrap_int_range (z : Z) : in_int (wrap_int z).
Proof.
  unfold in_int, wrap_int. rewrite INT_MAX_val, INT_MIN_val.
  pose proof (Z.mod_pos_bound (z + 2147483648) 4294967296). lia.
Qed.

Lemma int_incr_small (i : Z) : INT_MIN <= i < INT_MAX -> int_incr i = i + 1.
Proof.
  intros H. unfold int_incr. apply wrap_int_small.
  unfold in_int. lia.
Qed.

(* ================================================================== *)
(** ** The loop, one pass at a time *)

Lemma for_loop_pass (fuel : nat) (i : Z) (m : task_params_t) :
  i <= iterations m ->
  for_loop (S fuel) i m
  = (value (for_loop fuel (int_incr i) m),
     memory (for_loop fuel (int_incr i) m),
     iteration m i ++ trace (for_loop fuel (int_incr i) m)).
Proof.
  intros H. apply Z.leb_le in H.
  cbn [for_loop].
  cbv beta iota zeta delta [bind load emit busy_work sleep_ms ret fst snd].
  rewrite H.
  cbv beta iota zeta delta [bind load emit busy_work sleep_ms ret fst snd
                            value memory trace iteration app].
  reflexivity.
Qed.

Lemma for_loop_leave (fuel : nat) (i : Z) (m : task_params_t) :
  iterations m < i -> for_loop (S fuel) i m = (true, m, []).
Proof.
  intros H. apply Z.leb_gt in H.
  cbn [for_loop].
  cbv beta iota zeta delta [bind load ret fst snd].
  rewrite H. reflexivity.
Qed.

(** The loop never writes the descriptor. *)
Lemma for_loop_memory (fuel : nat) :
  forall (i : Z) (m : task_params_t), memory (for_loop fuel i m) = m.
Proof.
  induction fuel as [|fuel IH]; intros i m.
  - reflexivity.
  - destruct (Z.le_gt_cases i (iterations m)) as [Hle|Hgt].
    + rewrite for_loop_pass by assumption. unfold memory at 1. cbn [fst snd].
      apply IH.
    + rewrite for_loop_leave by lia. reflexivity.
Qed.

(** [k] passes in a row: the counter runs through [i, i+1, ..., i+k-1]. *)
Lemma for_loop_passes (k : nat) :
  forall (fuel : nat) (i : Z) (m : task_params_t),
    in_int i ->
    i + Z.of_nat k - 1 <= iterations m ->
    i + Z.of_nat k - 1 <= INT_MAX ->
    for_loop (k + fuel) i m
    = (value (for_loop fuel (wrap_int (i + Z.of_nat k)) m),
       m,
       flat_map (iteration m) (seqZ i k)
       ++ trace (for_loop fuel (wrap_int (i + Z.of_nat k)) m)).
Proof.
  induction k as [|k IH]; intros fuel i m Hi Hn Hmax.
  - replace (i + Z.of_nat 0) with i by lia.
    rewrite (wrap_int_small Hi). cbn [Nat.add seqZ flat_map app].
    rewrite <- (for_loop_memory fuel i m) at 3.
    unfold value, memory, trace.
    destruct (for_loop fuel i m) as [[b m'] tr]. reflexivity.
  - cbn [Nat.add]. rewrite for_loop_pass by lia.
    destruct k as [|k].
    + cbn [Nat.add seqZ flat_map]. rewrite for_loop_memory.
      unfold int_incr. replace (i + Z.of_nat 1) with (i + 1) by lia.
      rewrite app_nil_r. reflexivity.
    + unfold in_int in Hi.
      rewrite int_incr_small by lia.
      rewrite IH by (unfold in_int; lia).
      unfold value, memory, trace. cbn [fst snd seqZ flat_map].
      replace (i + 1 + Z.of_nat (S k)) with (i + Z.of_nat (S (S k))) by lia.
      rewrite <- app_assoc. reflexivity.
Qed.

(** The descriptor is the same after the thread body as before it. *)
Lemma task_fn_memory (fuel : nat) (m : task_params_t) :
  memory (task_fn fuel m) = m.
Proof.
  unfold task_fn, bind, memory. cbn [fst snd].
  pose proof (for_loop_memory fuel 1 m) as Hm. unfold memory in Hm.
  destruct (for_loop fuel 1 m) as [[b m'] tr]. cbn [fst snd] in *.
  subst m'. destruct b; reflexivity.
Qed.

(** What [task_fn] adds once the loop has been left. *)
Lemma task_fn_after_loop (fuel : nat) (m : task_params_t) (tr : list action) :
  for_loop fuel 1 m = (true, m, tr) ->
  task_fn fuel m = (Completed, m, tr ++ completion m).
Proof.
  intros H. unfold task_fn, bind. rewrite H. reflexivity.
Qed.

(** A task with a budget from 1 to [INT_MAX - 1]: the whole execution. *)
Lemma task_fn_complete (fuel : nat) (p : task_params_t) :
  iterations p < INT_MAX ->
  (Z.to_nat (iterations p) < fuel)%nat ->
  task_fn fuel p
  = (Completed, p,
     flat_map (iteration p) (seqZ 1 (Z.to_nat (iterations p)))
     ++ completion p).
Proof.
  intros Hmax Hfuel.
  apply task_fn_after_loop.
  set (k := Z.to_nat (iterations p)) in *.
  replace fuel with (k + S (fuel - S k))%nat by lia.
  assert (Hk : 1 + Z.of_nat k - 1 <= iterations p \/ k = 0%nat) by lia.
  destruct Hk as [Hk | Hk].
  - rewrite for_loop_passes by int_lia.
    rewrite wrap_int_small by int_lia.
    rewrite for_loop_leave by lia.
    unfold value, trace. cbn [fst snd]. rewrite app_nil_r. reflexivity.
  - rewrite Hk. cbn [Nat.add seqZ flat_map].
    rewrite for_loop_leave by lia. reflexivity.
Qed.

(* ================================================================== *)
(** ** Events of a trace *)

Lemma events_app (l1 l2 : list action) :
  events (l1 ++ l2) = events l1 ++ events l2.
Proof. apply filter_app. Qed.

Lemma iteration_labels_app (l1 l2 : list action) :
  iteration_labels (l1 ++ l2) = iteration_labels l1 ++ iteration_labels l2.
Proof.
  induction l1 as [|a l1 IH]; [reflexivity|].
  destruct a; cbn [app iteration_labels]; rewrite IH; reflexivity.
Qed.

Lemma events_passes (p : task_params_t) (l : list Z) :
  events (flat_map (iteration p) l) = map (PrintfIteration (name p)) l.
Proof.
  induction l as [|i l IH]; [reflexivity|].
  cbn [flat_map map]. rewrite events_app, IH. reflexivity.
Qed.

Lemma iteration_events_passes (p : task_params_t) (l : list Z) :
  iteration_events (flat_map (iteration p) l)
  = map (PrintfIteration (name p)) l.
Proof.
  induction l as [|i l IH]; [reflexivity|].
  cbn [flat_map map]. unfold iteration_events in *.
  rewrite filter_app, IH. reflexivity.
Qed.

Lemma completion_events_passes (p : task_params_t) (l : list Z) :
  completion_events (flat_map (iteration p) l) = [].
Proof.
  induction l as [|i l IH]; [reflexivity|].
  cbn [flat_map]. unfold completion_events in *.
  rewrite filter_app, IH. reflexivity.
Qed.

Lemma iteration_labels_passes (p : task_params_t) (l : list Z) :
  iteration_labels (flat_map (iteration p) l) = l.
Proof.
  induction l as [|i l IH]; [reflexivity|].
  cbn [flat_map]. rewrite iteration_labels_app, IH. reflexivity.
Qed.

Lemma length_seqZ (i : Z) (k : nat) : List.length (seqZ i k) = k.
Proof.
  revert i. induction k as [|k IH]; intros i; cbn [seqZ List.length];
    [reflexivity | now rewrite IH].
Qed.

(** The events of a completed execution: its iteration events, then its
    completion event. *)
Lemma task_fn_events (fuel : nat) (p : task_params_t) :
  iterations p < INT_MAX ->
  (Z.to_nat (iterations p) < fuel)%nat ->
  value (task_fn fuel p) = Completed /\
  events (trace (task_fn fuel p))
  = map (PrintfIteration (name p)) (seqZ 1 (Z.to_nat (iterations p)))
    ++ [PrintfDone (name p)].
Proof.
  intros Hmax Hfuel. rewrite task_fn_complete by assumption.
  split; [reflexivity|].
  unfold trace. cbn [snd]. rewrite events_app, events_passes. reflexivity.
Qed.

(** Below [INT_MAX] a task emits as many iteration events as its budget says,
    labelled from 1 upwards, and one completion event. *)
Lemma task_fn_in_range (fuel : nat) (p : task_params_t) :
  iterations p < INT_MAX ->
  (Z.to_nat (iterations p) < fuel)%nat ->
  List.length (iteration_events (trace (task_fn fuel p)))
  = Z.to_nat (iterations p) /\
  iteration_labels (trace (task_fn fuel p))
  = seqZ 1 (Z.to_nat (iterations p)) /\
  completion_events (trace (task_fn fuel p)) = [PrintfDone (name p)].
Proof.
  intros Hmax Hfuel. rewrite task_fn_complete by assumption.
  unfold trace. cbn [snd]. repeat split.
  - unfold iteration_events. rewrite filter_app.
    fold (iteration_events
            (flat_map (iteration p) (seqZ 1 (Z.to_nat (iterations p))))).
    rewrite iteration_events_passes, length_app, length_map, length_seqZ.
    cbn. lia.
  - rewrite iteration_labels_app, iteration_labels_passes.
    apply app_nil_r.
  - unfold completion_events. rewrite filter_app.
    fold (completion_events
            (flat_map (iteration p) (seqZ 1 (Z.to_nat (iterations p))))).
    rewrite completion_events_passes. reflexivity.
Qed.

(* ================================================================== *)
(** ** A budget of [INT_MAX]: the condition [i <= p->iterations] holds for
    every [int], and the counter wraps around past it. *)

Lemma for_loop_no_exit (m : task_params_t) :
  iterations m = INT_MAX ->
  forall (fuel : nat) (i : Z),
    in_int i ->
    value (for_loop fuel i m) = false /\
    completion_events (trace (for_loop fuel i m)) = [] /\
    List.length (iteration_events (trace (for_loop fuel i m))) = fuel.
Proof.
  intros Hn. induction fuel as [|fuel IH]; intros i Hi.
  - repeat split.
  - rewrite for_loop_pass by (unfold in_int in Hi; lia).
    destruct (IH (int_incr i) (wrap_int_range (i + 1))) as (Hv & Hc & Hl).
    unfold value, trace in *. cbn [fst snd].
    split; [assumption|]. split.
    + unfold completion_events in *. rewrite filter_app, Hc. reflexivity.
    + unfold iteration_events in *. rewrite filter_app, length_app, Hl.
      reflexivity.
Qed.

Lemma task_fn_trace (fuel : nat) (m : task_params_t) :
  trace (task_fn fuel m)
  = trace (for_loop fuel 1 m)
    ++ (if value (for_loop fuel 1 m) then completion m else []).
Proof.
  pose proof (for_loop_memory fuel 1 m) as Hm.
  unfold task_fn, bind, trace, value, memory in *. cbn [fst snd].
  destruct (for_loop fuel 1 m) as [[b m'] tr]. cbn [fst snd] in *.
  subst m'. destruct b; reflexivity.
Qed.

Lemma task_fn_value (fuel : nat) (m : task_params_t) :
  value (task_fn fuel m)
  = if value (for_loop fuel 1 m) then Completed else Running.
Proof.
  unfold task_fn, bind, value. cbn [fst snd].
  destruct (for_loop fuel 1 m) as [[b m'] tr]. cbn [fst snd].
  destruct b; reflexivity.
Qed.

(** The request [sleep_ms] hands to [nanosleep] is for [ms] milliseconds. *)
Lemma sleep_ms_duration (ms : Z) :
  timespec_ns {| tv_sec := Z.quot ms 1000;
                 tv_nsec := Z.rem ms 1000 * 1000000 |}
  = ms * 1000000.
Proof.
  unfold timespec_ns. cbn [tv_sec tv_nsec].
  pose proof (Z.quot_rem' ms 1000). lia.
Qed.

(* ================================================================== *)
(** ** The thread body: claims *)

(** The boundary the hypotheses below leave out.  With the budget [INT_MAX]
    the counter cannot pass the budget: however long the thread body runs it
    is still inside the loop and has emitted no completion event.  [main]
    never hands such a descriptor to [task_fn]. *)
Lemma task_fn_max_budget_never_completes (fuel : nat) :
  value (task_fn fuel max_budget_task) = Running /\
  completion_events (trace (task_fn fuel max_budget_task)) = [] /\
  List.length (iteration_events (trace (task_fn fuel max_budget_task))) = fuel.
Proof.
  assert (Hone : in_int 1) by (unfold in_int; int_lia).
  destruct (@for_loop_no_exit max_budget_task eq_refl fuel 1 Hone)
    as (Hv & Hc & Hl).
  rewrite task_fn_value, task_fn_trace, Hv.
  rewrite app_nil_r. auto.
Qed.

(** At that boundary the increment of the counter overflows, which C leaves
    undefined; with the wrap-around of the target the pass after the label
    [INT_MAX] carries the label [INT_MIN]. *)
Lemma task_fn_max_budget_labels :
  iteration_labels
    (trace (task_fn (Z.to_nat INT_MAX + 1) max_budget_task))
  = seqZ 1 (Z.to_nat INT_MAX) ++ [INT_MIN].
Proof.
  assert (Hk : Z.of_nat (Z.to_nat INT_MAX) = INT_MAX)
    by (apply Z2Nat.id; rewrite INT_MAX_val; lia).
  generalize dependent (Z.to_nat INT_MAX). intros k Hk.
  rewrite task_fn_trace.
  rewrite for_loop_passes;
    [ | unfold in_int; rewrite INT_MIN_val, INT_MAX_val; lia
      | change (iterations max_budget_task) with INT_MAX; lia
      | lia ].
  replace (1 + Z.of_nat k) with (INT_MAX + 1) by lia.
  change (wrap_int (INT_MAX + 1)) with INT_MIN.
  rewrite for_loop_pass
    by (change (iterations max_budget_task) with INT_MAX;
        rewrite INT_MIN_val, INT_MAX_val; lia).
  unfold value, trace. cbn [fst snd for_loop ret].
  rewrite !iteration_labels_app, iteration_labels_passes.
  cbn [iteration iteration_labels app]. rewrite !app_nil_r.
  reflexivity.
Qed.

Lemma nth_error_seqZ (k : nat) :
  forall (i : Z) (j : nat),
    (j < k)%nat -> nth_error (seqZ i k) j = Some (i + Z.of_nat j).
Proof.
  induction k as [|k IH]; intros i j Hj; [lia|].
  destruct j as [|j]; cbn [seqZ nth_error].
  - f_equal. lia.
  - rewrite IH by lia. f_equal. lia.
Qed.

Lemma seqZ_snoc (k : nat) :
  forall i : Z, seqZ i (S k) = seqZ i k ++ [i + Z.of_nat k].
Proof.
  induction k as [|k IH]; intros i.
  - cbn. f_equal. lia.
  - change (seqZ i (S (S k))) with (i :: seqZ (i + 1) (S k)).
    rewrite IH. cbn [seqZ app]. do 3 f_equal. lia.
Qed.

Lemma in_seqZ (k : nat) :
  forall i x : Z, In x (seqZ i k) -> i <= x < i + Z.of_nat k.
Proof.
  induction k as [|k IH]; intros i x Hin; [destruct Hin|].
  destruct Hin as [<- | Hin]; [lia|].
  apply IH in Hin. lia.
Qed.

Lemma NoDup_seqZ (k : nat) : forall i : Z, NoDup (seqZ i k).
Proof.
  induction k as [|k IH]; intros i; cbn [seqZ]; constructor.
  - intros Hin. apply in_seqZ in Hin. lia.
  - apply IH.
Qed.

(** C1.  A task with a budget from 1 up to the last one the [int] counter
    can count through ([iterations < INT_MAX]; [main] uses 5) runs to its
    end, and a run long enough to see that end has emitted: [iterations]
    iteration events, then one completion event, in this order, and no other
    event.  The event before the completion event is the last iteration
    event.  A longer run shows nothing more. *)
Theorem task_fn_emits_budget_then_done (p : task_params_t) (fuel : nat) :
  1 <= iterations p < INT_MAX ->
  (Z.to_nat (iterations p) < fuel)%nat ->
  value (task_fn fuel p) = Completed /\
  events (trace (task_fn fuel p))
  = map (PrintfIteration (name p)) (seqZ 1 (Z.to_nat (iterations p)))
    ++ [PrintfDone (name p)] /\
  List.length (iteration_events (trace (task_fn fuel p)))
  = Z.to_nat (iterations p) /\
  completion_events (trace (task_fn fuel p)) = [PrintfDone (name p)] /\
  (exists before : list action,
      events (trace (task_fn fuel p))
      = before
        ++ [PrintfIteration (name p) (iterations p); PrintfDone (name p)]) /\
  (forall extra : nat, task_fn (fuel + extra) p = task_fn fuel p).
Proof.
  intros Hn Hfuel.
  destruct (@task_fn_events fuel p) as [Hv Hev]; [lia | exact Hfuel |].
  destruct (@task_fn_in_range fuel p) as (Hlen & _ & Hdone);
    [lia | exact Hfuel |].
  split; [exact Hv|]. split; [exact Hev|]. split; [exact Hlen|].
  split; [exact Hdone|]. split.
  - rewrite Hev.
    destruct (Z.to_nat (iterations p)) as [|k] eqn:Hk; [lia|].
    rewrite seqZ_snoc, map_app, <- app_assoc. cbn [map app].
    replace (1 + Z.of_nat k) with (iterations p) by lia.
    eexists. reflexivity.
  - intros extra. rewrite !task_fn_complete by lia. reflexivity.
Qed.

Lemma task_fn_emits_budget_then_done_witness :
  1 <= iterations Driver.A < INT_MAX /\
  (Z.to_nat (iterations Driver.A) < 6)%nat /\
  value (task_fn 6 Driver.A) = Completed /\
  events (trace (task_fn 6 Driver.A))
  = map (PrintfIteration (name Driver.A))
      (seqZ 1 (Z.to_nat (iterations Driver.A)))
    ++ [PrintfDone (name Driver.A)].
Proof.
  assert (H1 : 1 <= iterations Driver.A < INT_MAX)
    by (rewrite INT_MAX_val; cbn [iterations Driver.A]; lia).
  assert (H2 : (Z.to_nat (iterations Driver.A) < 6)%nat) by (cbn; lia).
  destruct (task_fn_emits_budget_then_done Driver.A H1 H2)
    as (Hv & Hev & _).
  split; [exact H1|]. split; [exact H2|]. split; [exact Hv | exact Hev].
Defined.

(** C2.  For a task with such a budget, the labels of the iteration events
    of an execution are [1, 2, ..., iterations], each once, in this order:
    the [k]-th iteration event emitted is the one labelled [k]. *)
Theorem task_fn_labels_count_up (p : task_params_t) (fuel : nat) :
  1 <= iterations p < INT_MAX ->
  (Z.to_nat (iterations p) < fuel)%nat ->
  iteration_labels (trace (task_fn fuel p))
  = seqZ 1 (Z.to_nat (iterations p)) /\
  NoDup (iteration_labels (trace (task_fn fuel p))) /\
  (forall k : Z,
      1 <= k <= iterations p ->
      nth_error (iteration_events (trace (task_fn fuel p)))
        (Z.to_nat (k - 1))
      = Some (PrintfIteration (name p) k)) /\
  List.length (iteration_events (trace (task_fn fuel p)))
  = Z.to_nat (iterations p).
Proof.
  intros Hn Hfuel.
  destruct (@task_fn_in_range fuel p) as (Hlen & Hlab & _);
    [lia | exact Hfuel |].
  split; [exact Hlab|].
  split; [rewrite Hlab; apply NoDup_seqZ|].
  split; [|exact Hlen].
  intros k Hk. rewrite task_fn_complete by lia.
  unfold trace, iteration_events. cbn [snd]. rewrite filter_app.
  fold (iteration_events
          (flat_map (iteration p) (seqZ 1 (Z.to_nat (iterations p))))).
  rewrite iteration_events_passes.
  rewrite nth_error_app1 by (rewrite length_map, length_seqZ; lia).
  rewrite nth_error_map, nth_error_seqZ by lia.
  cbn [option_map]. do 2 f_equal. lia.
Qed.

Lemma task_fn_labels_count_up_witness :
  1 <= iterations Driver.B < INT_MAX /\
  (Z.to_nat (iterations Driver.B) < 6)%nat /\
  iteration_labels (trace (task_fn 6 Driver.B)) = [1; 2; 3; 4; 5].
Proof.
  assert (H1 : 1 <= iterations Driver.B < INT_MAX)
    by (rewrite INT_MAX_val; cbn [iterations Driver.B]; lia).
  assert (H2 : (Z.to_nat (iterations Driver.B) < 6)%nat) by (cbn; lia).
  split; [exact H1|]. split; [exact H2|].
  exact (proj1 (task_fn_labels_count_up Driver.B H1 H2)).
Defined.

(** C5.  In each pass [i] of the loop, for [i] from 1 to the budget, the
    thread does its work unit, then emits the iteration event [i] (and
    flushes it), then sleeps for the period; the passes follow one another in
    order at the front of the trace.  Whatever comes after them, the
    completion event included, comes after the sleep of the last pass; for a
    budget below [INT_MAX] what comes after is the completion event and its
    flush, and the execution is then complete. *)
Theorem task_fn_iteration_order (p : task_params_t) (fuel : nat) :
  iterations p <= INT_MAX ->
  (Z.to_nat (iterations p) < fuel)%nat ->
  exists (ts : timespec) (rest : list action),
    timespec_ns ts = period_ms p * 1000000 /\
    (forall i : Z,
        iteration p i
        = [Busy BUSY_SPINS; PrintfIteration (name p) i; Fflush; Nanosleep ts])
    /\
    trace (task_fn fuel p)
    = flat_map (iteration p) (seqZ 1 (Z.to_nat (iterations p))) ++ rest /\
    (iterations p < INT_MAX ->
     rest = [PrintfDone (name p); Fflush] /\
     value (task_fn fuel p) = Completed).
Proof.
  intros Hmax Hfuel.
  exists {| tv_sec := Z.quot (period_ms p) 1000;
            tv_nsec := Z.rem (period_ms p) 1000 * 1000000 |}.
  destruct (Z.eq_dec (iterations p) INT_MAX) as [Heq | Hne].
  - (* the largest budget: the passes are there, the rest is left open *)
    set (k := Z.to_nat (iterations p)) in *.
    assert (Hk : Z.of_nat k = iterations p)
      by (subst k; apply Z2Nat.id; rewrite Heq, INT_MAX_val; lia).
    assert (Hex : exists rest : list action,
               trace (task_fn fuel p)
               = flat_map (iteration p) (seqZ 1 k) ++ rest).
    { rewrite task_fn_trace.
      replace fuel with (k + (fuel - k))%nat by lia.
      rewrite for_loop_passes by int_lia.
      unfold trace at 1. cbn [snd]. rewrite <- app_assoc.
      eexists. reflexivity. }
    destruct Hex as [rest Hrest]. exists rest.
    split; [apply sleep_ms_duration|].
    split; [reflexivity|]. split; [exact Hrest | lia].
  - exists (completion p). split; [apply sleep_ms_duration|].
    split; [reflexivity|].
    rewrite task_fn_complete by lia.
    split; [reflexivity|]. intros _. split; reflexivity.
Qed.

Lemma task_fn_iteration_order_witness :
  iterations Driver.A <= INT_MAX /\
  (Z.to_nat (iterations Driver.A) < 6)%nat /\
  exists (ts : timespec) (rest : list action),
    timespec_ns ts = period_ms Driver.A * 1000000 /\
    (forall i : Z,
        iteration Driver.A i
        = [Busy BUSY_SPINS; PrintfIteration (name Driver.A) i; Fflush;
           Nanosleep ts])
    /\
    trace (task_fn 6 Driver.A)
    = flat_map (iteration Driver.A)
        (seqZ 1 (Z.to_nat (iterations Driver.A))) ++ rest /\
    (iterations Driver.A < INT_MAX ->
     rest = [PrintfDone (name Driver.A); Fflush] /\
     value (task_fn 6 Driver.A) = Completed).
Proof.
  assert (H1 : iterations Driver.A <= INT_MAX) by (vm_compute; discriminate).
  assert (H2 : (Z.to_nat (iterations Driver.A) < 6)%nat) by (cbn; lia).
  split; [exact H1|]. split; [exact H2|].
  exact (task_fn_iteration_order Driver.A H1 H2).
Defined.

(** C8.  Running the thread body, for any length of run, leaves the three
    fields of the descriptor as they were at the launch. *)
Theorem task_fn_descriptor_unchanged (fuel : nat) (p : task_params_t) :
  name (memory (task_fn fuel p)) = name p /\
  period_ms (memory (task_fn fuel p)) = period_ms p /\
  iterations (memory (task_fn fuel p)) = iterations p.
Proof. rewrite task_fn_memory. repeat split. Qed.

Lemma filter_iteration_events_out (nm : string) (l : list Z) :
  filter (fun a => negb (is_iteration a)) (map (PrintfIteration nm) l) = [].
Proof. induction l as [|i l IH]; [reflexivity | exact IH]. Qed.

(** C9.  With [iterations <= 0] the thread body emits no iteration event and
    exactly one event, the completion event of the task's name, and is
    complete; these are the events of a task of the same name that ran its
    positive budget to the end, with the iteration events left out. *)
Theorem task_fn_nonpositive_budget (p : task_params_t) (fuel : nat) :
  iterations p <= 0 ->
  (0 < fuel)%nat ->
  value (task_fn fuel p) = Completed /\
  iteration_events (trace (task_fn fuel p)) = [] /\
  events (trace (task_fn fuel p)) = [PrintfDone (name p)] /\
  (forall (q : task_params_t) (fq : nat),
      name q = name p ->
      1 <= iterations q < INT_MAX ->
      (Z.to_nat (iterations q) < fq)%nat ->
      filter (fun a => negb (is_iteration a)) (events (trace (task_fn fq q)))
      = events (trace (task_fn fuel p))).
Proof.
  intros Hn Hfuel.
  assert (Hk : Z.to_nat (iterations p) = 0%nat) by lia.
  assert (Hrun : task_fn fuel p = (Completed, p, completion p)).
  { rewrite task_fn_complete by int_lia. rewrite Hk. reflexivity. }
  rewrite Hrun. repeat split.
  intros q fq Hname Hq Hfq.
  destruct (@task_fn_events fq q) as [_ Hev]; [lia | assumption |].
  rewrite Hev, filter_app, filter_iteration_events_out, Hname. reflexivity.
Qed.

Lemma task_fn_nonpositive_budget_witness :
  iterations (mk_task_params "Z" 10 0) <= 0 /\
  value (task_fn 1 (mk_task_params "Z" 10 0)) = Completed /\
  events (trace (task_fn 1 (mk_task_params "Z" 10 0))) = [PrintfDone "Z"].
Proof.
  assert (H1 : iterations (mk_task_params "Z" 10 0) <= 0) by (cbn; lia).
  assert (H2 : (0 < 1)%nat) by lia.
  destruct (task_fn_nonpositive_budget (mk_task_params "Z" 10 0) H1 H2)
    as (Hv & _ & He & _).
  split; [exact H1|]. split; [exact Hv | exact He].
Defined.

Lemma for_loop_period_independent (nm : string) (n ms1 ms2 : Z) (fuel : nat) :
  forall i : Z,
    value (for_loop fuel i (mk_task_params nm ms1 n))
    = value (for_loop fuel i (mk_task_params nm ms2 n)) /\
    events (trace (for_loop fuel i (mk_task_params nm ms1 n)))
    = events (trace (for_loop fuel i (mk_task_params nm ms2 n))).
Proof.
  induction fuel as [|fuel IH]; intros i; [split; reflexivity|].
  destruct (Z.le_gt_cases i n) as [Hle | Hgt].
  - rewrite !for_loop_pass by exact Hle.
    destruct (IH (int_incr i)) as [Hv He].
    unfold value, trace in *. cbn [fst snd].
    split; [exact Hv|].
    rewrite !events_app, He. reflexivity.
  - rewrite !for_loop_leave by (cbn [iterations]; lia).
    split; reflexivity.
Qed.

(** C10.  Two descriptors that differ only in [period_ms] give executions
    with the same events, in the same order, and in the same state, whatever
    the length of the run. *)
Theorem task_fn_period_independent
  (fuel : nat) (nm : string) (n ms1 ms2 : Z) :
  value (task_fn fuel (mk_task_params nm ms1 n))
  = value (task_fn fuel (mk_task_params nm ms2 n)) /\
  events (trace (task_fn fuel (mk_task_params nm ms1 n)))
  = events (trace (task_fn fuel (mk_task_params nm ms2 n))).
Proof.
  destruct (for_loop_period_independent nm n ms1 ms2 fuel 1) as [Hv He].
  rewrite !task_fn_value, !task_fn_trace, !events_app, Hv, He.
  split; [reflexivity|].
  destruct (value (for_loop fuel 1 (mk_task_params nm ms2 n))); reflexivity.
Qed.

(* ================================================================== *)
(** ** Launching: claims *)

(** [thread_body] is the whole execution of a task whose budget is below
    [INT_MAX]: more fuel adds nothing to it. *)
Lemma thread_body_complete (p : task_params_t) (fuel : nat) :
  iterations p < INT_MAX ->
  (enough_fuel p <= fuel)%nat ->
  task_fn fuel p = (Completed, p, thread_body p).
Proof.
  intros Hmax Hfuel. unfold thread_body, enough_fuel in *.
  rewrite !task_fn_complete by lia. reflexivity.
Qed.

Example thread_body_A_events :
  events (thread_body Driver.A)
  = [PrintfIteration "TASK_A" 1; PrintfIteration "TASK_A" 2;
     PrintfIteration "TASK_A" 3; PrintfIteration "TASK_A" 4;
     PrintfIteration "TASK_A" 5; PrintfDone "TASK_A"].
Proof. reflexivity. Qed.

(** C3 (as the specification states it, refuted).  The property: launching a
    task whose budget is 0 fails and produces no events.  Here the system can
    start the thread: the launch of a task with budget 0 is not rejected, and
    its execution produces an event. *)
Lemma zero_budget_launch_accepted :
  rejected (pthread_create true (mk_task_params "T" 10 0)) <> true /\
  launch_events (pthread_create true (mk_task_params "T" 10 0)) <> [] /\
  pthread_create true (mk_task_params "T" 10 0)
  = Launched [PrintfDone "T"; Fflush].
Proof.
  split; [vm_compute; discriminate|].
  split; [vm_compute; discriminate | reflexivity].
Qed.

(** C3 (amended).  A budget below 1 is no reason for a launch to fail: the
    launch is rejected exactly when the system cannot start the thread, and a
    thread that was started runs no pass of the loop and emits one event, the
    completion event. *)
Theorem pthread_create_ignores_budget (os_ok : bool) (p : task_params_t) :
  iterations p < 1 ->
  rejected (pthread_create os_ok p) = negb os_ok /\
  (os_ok = true ->
   pthread_create os_ok p = Launched [PrintfDone (name p); Fflush] /\
   launch_events (pthread_create os_ok p) = [PrintfDone (name p)]).
Proof.
  intros Hn. split; [destruct os_ok; reflexivity|].
  intros ->. unfold pthread_create, thread_body, enough_fuel.
  rewrite task_fn_complete by int_lia.
  replace (Z.to_nat (iterations p)) with 0%nat by lia.
  split; reflexivity.
Qed.

Lemma pthread_create_ignores_budget_witness :
  iterations (mk_task_params "T" 10 0) < 1 /\
  rejected (pthread_create true (mk_task_params "T" 10 0)) = false /\
  launch_events (pthread_create true (mk_task_params "T" 10 0))
  = [PrintfDone "T"].
Proof.
  assert (H : iterations (mk_task_params "T" 10 0) < 1) by (cbn; lia).
  destruct (pthread_create_ignores_budget true (mk_task_params "T" 10 0) H)
    as [Hr Hl].
  destruct (Hl eq_refl) as [_ He].
  split; [exact H|]. split; [exact Hr | exact He].
Defined.

(* ================================================================== *)
(** ** The driver *)

Section DriverFacts.

Import Driver.

Lemma by_thread_app (t : tid) (l1 l2 : list (tid * action)) :
  by_thread t (l1 ++ l2) = by_thread t l1 ++ by_thread t l2.
Proof. unfold by_thread. rewrite filter_app, map_app. reflexivity. Qed.

Lemma run_app (s1 s2 : list choice) :
  forall w : world,
    run (s1 ++ s2) w
    = match run s1 w with Some w' => run s2 w' | None => None end.
Proof.
  induction s1 as [|c s1 IH]; intros w; [reflexivity|].
  cbn [app run]. destruct (step w c); [apply IH | reflexivity].
Qed.

Lemma thread_ok_other (t t' : tid) (body : list action)
  (th : option (list action)) (l : list (tid * action)) (a : action) :
  tid_eqb t' t = false ->
  thread_ok t body th l -> thread_ok t body th (l ++ [(t', a)]).
Proof.
  intros Hne. unfold thread_ok.
  destruct th; rewrite by_thread_app; unfold by_thread at 2; cbn;
    rewrite Hne; cbn; rewrite app_nil_r; auto.
Qed.

Lemma thread_ok_own (t : tid) (body todo : list action)
  (l : list (tid * action)) (a : action) :
  tid_eqb t t = true ->
  thread_ok t body (Some (a :: todo)) l ->
  thread_ok t body (Some todo) (l ++ [(t, a)]).
Proof.
  intros Heq. unfold thread_ok. rewrite by_thread_app. unfold by_thread at 2.
  cbn. rewrite Heq. cbn. rewrite <- app_assoc. auto.
Qed.

Lemma quiet_other (t : tid) (l : list (tid * action)) (a : action) :
  tid_eqb t Main = false ->
  by_thread Main l = [] -> by_thread Main (l ++ [(t, a)]) = [].
Proof.
  intros Hne H. rewrite by_thread_app, H. unfold by_thread. cbn.
  rewrite Hne. reflexivity.
Qed.

Lemma one_line_other (line : action) (t : tid) (l : list (tid * action))
  (a : action) :
  tid_eqb t Main = false ->
  one_line line l -> one_line line (l ++ [(t, a)]).
Proof.
  intros Hne (before & after & Hl & Hb & Ha).
  exists before, (after ++ [(t, a)]). subst l.
  rewrite <- app_assoc. cbn [app]. repeat split; auto using quiet_other.
Qed.

Lemma one_line_first (line : action) (l : list (tid * action)) :
  by_thread Main l = [] -> one_line line (l ++ [(Main, line)]).
Proof. intros H. exists l, []. repeat split; auto. Qed.

Lemma init_inv : inv init.
Proof. repeat split. Qed.

Lemma main_step_inv (os_ok : bool) (w w' : world) :
  inv w -> main_step os_ok w = Some w' -> inv w'.
Proof.
  destruct w as [p ta tb cr lg].
  unfold inv, at_pc, main_step, quiet.
  cbn [pc thread_a thread_b creates log].
  intros (Ha & Hb & Hpc) Hstep.
  destruct p.
  - (* AtCreateA *)
    destruct Hpc as (-> & -> & -> & Hq). cbn [thread_ok] in Ha.
    destruct os_ok; cbn [pthread_create] in Hstep; injection Hstep as <-;
      cbn [pc thread_a thread_b creates log thread_ok app].
    + rewrite Ha. repeat split; auto; discriminate.
    + repeat split; auto.
  - (* AtPerrorA *)
    destruct Hpc as (-> & -> & -> & Hq). injection Hstep as <-.
    cbn [pc thread_a thread_b creates log].
    split; [apply thread_ok_other; auto|].
    split; [apply thread_ok_other; auto|].
    right. split; [reflexivity|]. left.
    unfold failure_end_a. cbn [pc thread_a thread_b creates log].
    repeat split; auto using one_line_first.
  - (* AtCreateB *)
    destruct Hpc as (Hta & -> & -> & Hq). cbn [thread_ok] in Hb.
    destruct os_ok; cbn [pthread_create] in Hstep; injection Hstep as <-;
      cbn [pc thread_a thread_b creates log thread_ok app].
    + rewrite Hb. repeat split; auto; discriminate.
    + repeat split; auto.
  - (* AtPerrorB *)
    destruct Hpc as (Hta & -> & -> & Hq). injection Hstep as <-.
    cbn [pc thread_a thread_b creates log].
    split; [apply thread_ok_other; auto|].
    split; [apply thread_ok_other; auto|].
    right. split; [reflexivity|]. right.
    unfold failure_end_b. cbn [pc thread_a thread_b creates log].
    repeat split; auto using one_line_first.
  - (* AtJoinA *)
    destruct Hpc as (Hta & Htb & -> & Hq).
    destruct ta as [[|a ta]|]; try discriminate. injection Hstep as <-.
    cbn [pc thread_a thread_b creates log]. repeat split; auto.
  - (* AtJoinB *)
    destruct Hpc as (-> & Htb & -> & Hq).
    destruct tb as [[|b tb]|]; try discriminate. injection Hstep as <-.
    cbn [pc thread_a thread_b creates log]. repeat split; auto.
  - (* AtPuts *)
    destruct Hpc as (-> & -> & -> & Hq). injection Hstep as <-.
    cbn [pc thread_a thread_b creates log].
    split; [apply thread_ok_other; auto|].
    split; [apply thread_ok_other; auto|].
    left. split; [reflexivity|]. unfold success_end.
    cbn [pc thread_a thread_b creates log].
    repeat split; auto. exists lg. auto.
  - (* AtReturn *)
    injection Hstep as <-. cbn [pc thread_a thread_b creates log].
    repeat split; auto.
  - (* Exited *)
    discriminate.
Qed.

Lemma step_inv (w w' : world) (c : choice) :
  inv w -> step w c = Some w' -> inv w'.
Proof.
  unfold step. destruct (exited w) eqn:Hex; [discriminate|].
  destruct c as [os_ok | | ]; [apply main_step_inv | | ].
  - (* thread A moves *)
    destruct w as [p ta tb cr lg]. unfold inv, at_pc, quiet, exited in *.
    cbn [pc thread_a thread_b creates log] in *.
    intros (Ha & Hb & Hpc) Hstep.
    destruct ta as [[|a ta]|]; try discriminate. injection Hstep as <-.
    cbn [pc thread_a thread_b creates log].
    split; [apply thread_ok_own; auto|].
    split; [apply thread_ok_other; auto|].
    destruct p; try discriminate;
      try (destruct Hpc as (Hta & Htb & Hcr & Hq);
           try discriminate;
           repeat split; auto using quiet_other; discriminate).
    (* AtReturn: only the run in which the second create failed goes on *)
    destruct Hpc as [(_ & Hta & _) | (Hc & [(Hta & _) | (_ & Htb & Hcr & Hl)])];
      try discriminate.
    right. split; [assumption|]. right.
    unfold failure_end_b. cbn [pc thread_a thread_b creates log].
    repeat split; auto using one_line_other. discriminate.
  - (* thread B moves *)
    destruct w as [p ta tb cr lg]. unfold inv, at_pc, quiet, exited in *.
    cbn [pc thread_a thread_b creates log] in *.
    intros (Ha & Hb & Hpc) Hstep.
    destruct tb as [[|b tb]|]; try discriminate. injection Hstep as <-.
    cbn [pc thread_a thread_b creates log].
    split; [apply thread_ok_other; auto|].
    split; [apply thread_ok_own; auto|].
    destruct p; try discriminate;
      try (destruct Hpc as (Hta & Htb & Hcr & Hq);
           try discriminate;
           repeat split; auto using quiet_other; discriminate).
    destruct Hpc as [(_ & _ & Htb & _) | (_ & [(_ & Htb & _) | (_ & Htb & _)])];
      discriminate.
Qed.

(** Every world [main] can be in satisfies the invariant. *)
Lemma run_inv (sched : list choice) :
  forall w w' : world, inv w -> run sched w = Some w' -> inv w'.
Proof.
  induction sched as [|c sched IH]; intros w w' Hinv Hrun.
  - injection Hrun as <-. exact Hinv.
  - cbn [run] in Hrun. destruct (step w c) as [w1|] eqn:Hstep;
      [|discriminate].
    eapply IH; [eapply step_inv; eassumption | exact Hrun].
Qed.

Lemma main_inv (sched : list choice) (w : world) :
  main sched = Some w -> inv w.
Proof. apply run_inv, init_inv. Qed.

(** *** Progress *)

Lemma run_thread_a (todo : list action) :
  forall w : world,
    thread_a w = Some todo ->
    exited w = false ->
    run (repeat RunA (List.length todo)) w
    = Some {| pc := pc w; thread_a := Some []; thread_b := thread_b w;
              creates := creates w;
              log := log w ++ map (pair ThreadA) todo |}.
Proof.
  induction todo as [|a todo IH]; intros w Hta Hex.
  - cbn. rewrite app_nil_r, <- Hta. destruct w; reflexivity.
  - cbn [List.length repeat run]. unfold step. rewrite Hex, Hta.
    rewrite IH by (try reflexivity; exact Hex).
    cbn [pc thread_a thread_b creates log map]. rewrite <- app_assoc.
    reflexivity.
Qed.

Lemma run_thread_b (todo : list action) :
  forall w : world,
    thread_b w = Some todo ->
    exited w = false ->
    run (repeat RunB (List.length todo)) w
    = Some {| pc := pc w; thread_a := thread_a w; thread_b := Some [];
              creates := creates w;
              log := log w ++ map (pair ThreadB) todo |}.
Proof.
  induction todo as [|b todo IH]; intros w Htb Hex.
  - cbn. rewrite app_nil_r, <- Htb. destruct w; reflexivity.
  - cbn [List.length repeat run]. unfold step. rewrite Hex, Htb.
    rewrite IH by (try reflexivity; exact Hex).
    cbn [pc thread_a thread_b creates log map]. rewrite <- app_assoc.
    reflexivity.
Qed.

(** Once both creates have succeeded, the run can always be brought to the
    exit with status 0: let thread A finish, let thread B finish, and let the
    main thread take the steps it has left. *)
Lemma can_exit (w : world) :
  inv w ->
  launched w = [A; B] ->
  exists w' : world,
    run (repeat RunA (left_todo [] (thread_a w))
         ++ repeat RunB (left_todo [] (thread_b w))
         ++ repeat (RunMain true) (rank (pc w))) w = Some w' /\
    pc w' = Exited 0.
Proof.
  destruct w as [p ta tb cr lg]. unfold inv, at_pc, launched, quiet.
  cbn [pc thread_a thread_b creates log].
  intros (_ & _ & Hpc) Hl.
  assert (Hend : forall code,
             ending code (mk_world p ta tb cr lg) ->
             code = 0 /\ ta = Some [] /\ tb = Some []).
  { intros code [(H0 & Hta & Htb & _) | (_ & [(_ & _ & Hcr & _) | (_ & _ & Hcr & _)])];
      cbn [pc thread_a thread_b creates log] in *; auto;
      rewrite Hcr in Hl; discriminate. }
  destruct p;
    try (destruct Hpc as (Hta & Htb & Hcr & _); rewrite Hcr in Hl;
         discriminate).
  - (* AtJoinA *)
    destruct Hpc as (Hta & Htb & _).
    destruct ta as [todo_a|]; [|congruence].
    destruct tb as [todo_b|]; [|congruence].
    cbn [left_todo rank]. rewrite run_app.
    rewrite run_thread_a by reflexivity. cbn [pc thread_a thread_b creates log].
    rewrite run_app, run_thread_b by reflexivity.
    eexists. split; reflexivity.
  - (* AtJoinB *)
    destruct Hpc as (-> & Htb & _).
    destruct tb as [todo_b|]; [|congruence].
    cbn [left_todo rank List.length repeat app]. rewrite run_app.
    rewrite run_thread_b by reflexivity.
    eexists. split; reflexivity.
  - (* AtPuts *)
    destruct Hpc as (-> & -> & _). eexists. split; reflexivity.
  - (* AtReturn *)
    destruct (Hend code Hpc) as (-> & -> & ->). eexists. split; reflexivity.
  - (* Exited *)
    destruct (Hend code Hpc) as (-> & -> & ->). eexists. split; reflexivity.
Qed.

(** Each step uses up some of the measure: no run of [main] is longer than
    the measure of the initial world. *)
Lemma step_measure (w w' : world) (c : choice) :
  inv w -> step w c = Some w' -> (measure w' < measure w)%nat.
Proof.
  destruct w as [p ta tb cr lg].
  unfold inv, at_pc, step, exited, main_step, measure.
  cbn [pc thread_a thread_b creates log].
  intros (_ & _ & Hpc) Hstep.
  destruct c as [os_ok | | ].
  - destruct p; try discriminate;
      try (destruct Hpc as (Hta & Htb & _));
      try (destruct os_ok; cbn [pthread_create] in Hstep);
      try (destruct ta as [[|a ta]|]; try discriminate);
      try (destruct tb as [[|b tb]|]; try discriminate);
      injection Hstep as <-;
      cbn [pc thread_a thread_b creates log left_todo rank]; lia.
  - destruct p; try discriminate;
      (destruct ta as [[|a ta]|]; try discriminate);
      injection Hstep as <-;
      cbn [pc thread_a thread_b creates log left_todo rank List.length]; lia.
  - destruct p; try discriminate;
      (destruct tb as [[|b tb]|]; try discriminate);
      injection Hstep as <-;
      cbn [pc thread_a thread_b creates log left_todo rank List.length]; lia.
Qed.

Lemma run_measure (sched : list choice) :
  forall w w' : world,
    inv w -> run sched w = Some w' ->
    (List.length sched + measure w' <= measure w)%nat.
Proof.
  induction sched as [|c sched IH]; intros w w' Hinv Hrun.
  - injection Hrun as <-. cbn. lia.
  - cbn [run] in Hrun. destruct (step w c) as [w1|] eqn:Hstep;
      [|discriminate].
    pose proof (step_measure _ Hinv Hstep).
    pose proof (IH w1 w' (step_inv _ Hinv Hstep) Hrun).
    cbn [List.length]. lia.
Qed.

(** No run of [main] has more than 50 steps. *)
Lemma main_run_bounded (sched : list choice) (w : world) :
  main sched = Some w -> (List.length sched <= 50)%nat.
Proof.
  intros Hrun. pose proof (run_measure _ init_inv Hrun) as H.
  change (measure init) with 50%nat in H. lia.
Qed.

Lemma launched_after_failure (w : world) :
  failure_end_a w \/ failure_end_b w -> launched w <> [A; B].
Proof.
  unfold launched.
  intros [(_ & _ & Hcr & _) | (_ & _ & Hcr & _)]; rewrite Hcr; discriminate.
Qed.

(** *** The driver: claims *)

(** C4.  When both launches have succeeded, the run can always be brought to
    its end, and at its end: the exit status is 0; the log is the events of
    the two threads followed by the line [SELF_TEST_FAIL] of the main thread,
    which is the last entry and the only one the main thread wrote; and each
    thread has by then done all of its body, up to and including its
    completion event. *)
Theorem main_success_exit (sched : list choice) (w : world) :
  main sched = Some w ->
  launched w = [A; B] ->
  (exists (sched' : list choice) (w' : world),
      run sched' w = Some w' /\ pc w' = Exited 0) /\
  (forall code : Z,
      pc w = Exited code ->
      code = 0 /\
      exists evs : list (tid * action),
        log w = evs ++ [(Main, Puts "SELF_TEST_FAIL")] /\
        by_thread Main evs = [] /\
        by_thread ThreadA evs = thread_body A /\
        by_thread ThreadB evs = thread_body B).
Proof.
  intros Hrun Hl. pose proof (main_inv _ Hrun) as Hinv. split.
  - destruct (can_exit Hinv Hl) as (w' & Hw' & Hpc). eauto.
  - intros code Hpc. destruct Hinv as (Ha & Hb & Hat).
    unfold at_pc in Hat. rewrite Hpc in Hat.
    destruct Hat as [(-> & Hta & Htb & _ & evs & Hlog & Hq) | (_ & Hfail)].
    + split; [reflexivity|]. exists evs.
      rewrite Hta, Hlog in Ha. rewrite Htb, Hlog in Hb.
      unfold thread_ok in Ha, Hb. rewrite by_thread_app in Ha, Hb.
      change (by_thread ThreadA [(Main, Puts "SELF_TEST_FAIL")])
        with (@nil action) in Ha.
      change (by_thread ThreadB [(Main, Puts "SELF_TEST_FAIL")])
        with (@nil action) in Hb.
      rewrite !app_nil_r in Ha, Hb. auto.
    + destruct (launched_after_failure Hfail Hl).
Qed.

Lemma main_success_exit_witness :
  main calm_schedule = Some calm_world /\
  launched calm_world = [A; B] /\
  pc calm_world = Exited 0 /\
  exists evs : list (tid * action),
    log calm_world = evs ++ [(Main, Puts "SELF_TEST_FAIL")] /\
    by_thread Main evs = [] /\
    by_thread ThreadA evs = thread_body A /\
    by_thread ThreadB evs = thread_body B.
Proof.
  assert (H1 : main calm_schedule = Some calm_world)
    by (vm_compute; reflexivity).
  assert (H2 : launched calm_world = [A; B]) by (vm_compute; reflexivity).
  split; [exact H1|]. split; [exact H2|]. split; [reflexivity|].
  exact (proj2 (proj2 (main_success_exit calm_schedule H1 H2) 0 eq_refl)).
Defined.

(** C6.  When a launch fails the run is given up at once.  At the exit after
    a failed launch the status is 1, the main thread has written one line and
    no other, the [perror] diagnostic that names the create that failed, the
    failed create was the last one made, and no thread B exists.  From a
    create that fails the main thread reaches that exit in three steps of its
    own, with no step of any thread needed in between: thread A is left with
    whatever it had still to do. *)
Theorem main_launch_failure_aborts (sched : list choice) (w : world) :
  main sched = Some w ->
  (forall code : Z,
      pc w = Exited code ->
      launched w <> [A; B] ->
      code = 1 /\
      thread_b w = None /\
      ((creates w = [(A, false)] /\ thread_a w = None /\
        one_line (Perror "pthread_create A") (log w)) \/
       (creates w = [(A, true); (B, false)] /\
        one_line (Perror "pthread_create B") (log w)))) /\
  (pc w = AtCreateA \/ pc w = AtCreateB ->
   forall os1 os2 : bool,
   exists w' : world,
     run [RunMain false; RunMain os1; RunMain os2] w = Some w' /\
     pc w' = Exited 1 /\
     thread_a w' = thread_a w /\
     thread_b w' = None).
Proof.
  intros Hrun. pose proof (main_inv _ Hrun) as (_ & _ & Hat).
  unfold at_pc in Hat. split.
  - intros code Hpc Hl. rewrite Hpc in Hat.
    destruct Hat as [(_ & _ & _ & Hcr & _) | (-> & Hfail)].
    + unfold launched in Hl. rewrite Hcr in Hl. destruct Hl. reflexivity.
    + split; [reflexivity|].
      destruct Hfail as [(Hta & Htb & Hcr & Hline) | (_ & Htb & Hcr & Hline)];
        auto.
  - destruct w as [p ta tb cr lg]. cbn [pc thread_a thread_b] in *.
    intros [-> | ->] os1 os2; destruct Hat as (_ & -> & _);
      eexists; (split; [reflexivity|]); repeat split.
Qed.

Lemma main_launch_failure_aborts_witness :
  main abort_schedule = Some abort_world /\
  pc abort_world = Exited 1 /\
  thread_b abort_world = None /\
  creates abort_world = [(A, true); (B, false)] /\
  one_line (Perror "pthread_create B") (log abort_world) /\
  thread_a abort_world <> Some [].
Proof.
  assert (H1 : main abort_schedule = Some abort_world)
    by (vm_compute; reflexivity).
  assert (H2 : launched abort_world <> [A; B])
    by (vm_compute; discriminate).
  destruct (proj1 (main_launch_failure_aborts abort_schedule H1) 1 eq_refl H2)
    as (_ & Htb & [(Hcr & _) | (Hcr & Hline)]).
  - vm_compute in Hcr. discriminate Hcr.
  - split; [exact H1|]. split; [reflexivity|]. split; [exact Htb|].
    split; [exact Hcr|]. split; [exact Hline|]. vm_compute. discriminate.
Defined.

Lemma creates_of_inv (w : world) :
  inv w ->
  exists n : nat,
    map fst (creates w) = firstn n [A; B] /\
    (pc w = Exited 0 -> creates w = [(A, true); (B, true)]).
Proof.
  intros (_ & _ & Hat). unfold at_pc in Hat.
  assert (Hcases : creates w = [] \/ creates w = [(A, false)] \/
                   creates w = [(A, true)] \/
                   creates w = [(A, true); (B, false)] \/
                   creates w = [(A, true); (B, true)]).
  { destruct (pc w);
      try (destruct Hat as (_ & _ & Hcr & _); tauto);
      destruct Hat as [(_ & _ & _ & Hcr & _) |
                       (_ & [(_ & _ & Hcr & _) | (_ & _ & Hcr & _)])];
      tauto. }
  assert (Hend : pc w = Exited 0 -> creates w = [(A, true); (B, true)]).
  { intros Hpc. rewrite Hpc in Hat.
    destruct Hat as [(_ & _ & _ & Hcr & _) | (Hone & _)];
      [exact Hcr | discriminate Hone]. }
  destruct Hcases as [Hcr | [Hcr | [Hcr | [Hcr | Hcr]]]];
    [exists 0%nat | exists 1%nat | exists 1%nat | exists 2%nat | exists 2%nat];
    (split; [rewrite Hcr; reflexivity | exact Hend]).
Qed.

(** C7.  The creates [main] makes are, in order, one for the descriptor
    ["TASK_A", 10, 5] and one for the descriptor ["TASK_B", 16, 5], and no
    other; a run that ends with status 0 has made both, with success, so it
    has launched exactly these two tasks.  The sleeps of the first thread are
    for 10 ms each, those of the second for 16 ms each. *)
Theorem main_reference_configuration (sched : list choice) (w : world) :
  main sched = Some w ->
  (exists n : nat,
      map fst (creates w)
      = firstn n [mk_task_params "TASK_A" 10 5;
                  mk_task_params "TASK_B" 16 5]) /\
  (pc w = Exited 0 ->
   launched w = [mk_task_params "TASK_A" 10 5;
                 mk_task_params "TASK_B" 16 5]) /\
  (forall ts : timespec,
      In (Nanosleep ts) (thread_body A) -> timespec_ns ts = 10 * 1000000) /\
  (forall ts : timespec,
      In (Nanosleep ts) (thread_body B) -> timespec_ns ts = 16 * 1000000).
Proof.
  intros Hrun.
  destruct (creates_of_inv (main_inv _ Hrun)) as (n & Hn & Hend).
  split; [exists n; exact Hn|].
  split; [intros Hpc; unfold launched; rewrite (Hend Hpc); reflexivity|].
  split; intros ts Hin; vm_compute in Hin;
    repeat (destruct Hin as [Hin | Hin];
            [first [discriminate Hin | injection Hin as <-; reflexivity]|]);
    destruct Hin.
Qed.

Lemma main_reference_configuration_witness :
  main calm_schedule = Some calm_world /\
  pc calm_world = Exited 0 /\
  launched calm_world = [mk_task_params "TASK_A" 10 5;
                         mk_task_params "TASK_B" 16 5].
Proof.
  assert (H1 : main calm_schedule = Some calm_world)
    by (vm_compute; reflexivity).
  split; [exact H1|]. split; [reflexivity|].
  exact (proj1 (proj2 (main_reference_configuration calm_schedule H1))
           eq_refl).
Defined.

End DriverFacts.

(* ================================================================== *)
(** ** More on the thread body *)

(** X1.  [sleep_ms ms] makes one [nanosleep] request and leaves the
    descriptor alone.  The request stands for [ms] milliseconds, its
    nanosecond field stays within 999000000 of zero (so the [long] product
    cannot overflow), and it is one [nanosleep] accepts exactly when [ms] is
    not negative: with a negative [ms] the call fails and nothing is slept. *)
Theorem sleep_ms_request (ms : Z) (m : task_params_t) :
  exists ts : timespec,
    sleep_ms ms m = (tt, m, [Nanosleep ts]) /\
    timespec_ns ts = ms * 1000000 /\
    -999000000 <= tv_nsec ts <= 999000000 /\
    (timespec_valid ts = true <-> 0 <= ms).
Proof.
  eexists. split; [reflexivity|].
  split; [apply sleep_ms_duration|].
  unfold timespec_valid. cbn [tv_sec tv_nsec].
  pose proof (Z.quot_rem' ms 1000) as Hqr.
  destruct (Z.le_gt_cases 0 ms) as [Hpos | Hneg].
  - pose proof (Z.rem_bound_pos_pos ms 1000 ltac:(lia) Hpos) as Hr.
    split; [lia|]. split; [intros _; exact Hpos|]. intros _.
    apply andb_true_intro. split; [apply andb_true_intro; split|];
      apply Z.leb_le; lia.
  - pose proof (Z.rem_bound_pos_neg ms 1000 ltac:(lia) ltac:(lia)) as Hr.
    split; [lia|]. split; [|lia]. intros Hv.
    apply andb_prop in Hv. destruct Hv as [Hv _].
    apply andb_prop in Hv. destruct Hv as [Hs Hn].
    apply Z.leb_le in Hs, Hn. lia.
Qed.

Lemma for_loop_more_fuel (fuel extra : nat) :
  forall (i : Z) (m : task_params_t),
  exists rest : list action,
    trace (for_loop (fuel + extra) i m)
    = trace (for_loop fuel i m) ++ rest /\
    (value (for_loop fuel i m) = true ->
     rest = [] /\ value (for_loop (fuel + extra) i m) = true) /\
    (value (for_loop (fuel + extra) i m) = false ->
     value (for_loop fuel i m) = false).
Proof.
  induction fuel as [|fuel IH]; intros i m.
  - exists (trace (for_loop extra i m)). cbn [Nat.add].
    split; [reflexivity|]. split; [discriminate | reflexivity].
  - cbn [Nat.add]. destruct (Z.le_gt_cases i (iterations m)) as [Hle | Hgt].
    + rewrite !for_loop_pass by exact Hle.
      destruct (IH (int_incr i) m) as (rest & Htr & Hdone & Hrun).
      exists rest. unfold value, trace in *. cbn [fst snd].
      rewrite Htr, app_assoc. auto.
    + rewrite !for_loop_leave by lia. exists [].
      split; [reflexivity|]. split; [auto | discriminate].
Qed.

(** X2.  Watching an execution for longer only adds to the end of what it
    has done; and once it is complete nothing is added any more: nothing
    follows the completion event and its flush. *)
Theorem task_fn_more_fuel (fuel extra : nat) (p : task_params_t) :
  (exists rest : list action,
      trace (task_fn (fuel + extra) p) = trace (task_fn fuel p) ++ rest) /\
  (value (task_fn fuel p) = Completed ->
   task_fn (fuel + extra) p = task_fn fuel p).
Proof.
  destruct (for_loop_more_fuel fuel extra 1 p) as (rest & Htr & Hdone & Hrun).
  pose proof (for_loop_memory fuel 1 p) as Hm1.
  pose proof (for_loop_memory (fuel + extra) 1 p) as Hm2.
  rewrite !task_fn_trace, !task_fn_value.
  unfold task_fn, bind.
  unfold value, trace, memory in *.
  destruct (for_loop fuel 1 p) as [[b1 m1] tr1].
  destruct (for_loop (fuel + extra) 1 p) as [[b2 m2] tr2].
  cbn [fst snd] in *. subst m1 m2 tr2.
  destruct b1.
  - destruct (Hdone eq_refl) as [-> ->]. rewrite app_nil_r.
    split; [exists []; rewrite app_nil_r; reflexivity | reflexivity].
  - split; [|discriminate].
    exists (rest ++ (if b2 then completion p else [])).
    rewrite app_nil_r, app_assoc. reflexivity.
Qed.

(** X3.  For a budget that is an [int], the thread body comes to its end
    exactly when the budget is below [INT_MAX]. *)
Theorem task_fn_completes_iff (p : task_params_t) :
  iterations p <= INT_MAX ->
  (exists fuel : nat, value (task_fn fuel p) = Completed)
  <-> iterations p < INT_MAX.
Proof.
  intros Hmax. split.
  - intros [fuel Hdone].
    destruct (Z.eq_dec (iterations p) INT_MAX) as [Heq | Hne]; [|lia].
    assert (Hone : in_int 1) by int_lia.
    destruct (for_loop_no_exit p Heq fuel Hone) as (Hv & _).
    rewrite task_fn_value, Hv in Hdone. discriminate.
  - intros Hlt. exists (enough_fuel p).
    rewrite task_fn_complete by (unfold enough_fuel; lia). reflexivity.
Qed.

Lemma task_fn_completes_iff_witness :
  iterations Driver.B <= INT_MAX /\
  ((exists fuel : nat, value (task_fn fuel Driver.B) = Completed)
   <-> iterations Driver.B < INT_MAX).
Proof.
  assert (H : iterations Driver.B <= INT_MAX) by (vm_compute; discriminate).
  split; [exact H | exact (task_fn_completes_iff Driver.B H)].
Defined.

Lemma total_sleep_ns_app (l1 l2 : list action) :
  total_sleep_ns (l1 ++ l2) = total_sleep_ns l1 + total_sleep_ns l2.
Proof.
  induction l1 as [|a l1 IH]; [reflexivity|].
  destruct a; cbn [app total_sleep_ns]; rewrite IH; lia.
Qed.

Lemma total_sleep_ns_passes (p : task_params_t) (l : list Z) :
  total_sleep_ns (flat_map (iteration p) l)
  = Z.of_nat (List.length l) * (period_ms p * 1000000).
Proof.
  induction l as [|i l IH]; [reflexivity|].
  cbn [flat_map]. rewrite total_sleep_ns_app, IH.
  unfold iteration. cbn [total_sleep_ns List.length].
  rewrite sleep_ms_duration. lia.
Qed.

(** X4.  A task with a budget from 0 to [INT_MAX - 1] asks for
    [iterations * period_ms] milliseconds of sleep over its whole execution:
    the sleep after the last pass counts like the others. *)
Theorem task_fn_total_sleep (fuel : nat) (p : task_params_t) :
  0 <= iterations p < INT_MAX ->
  (Z.to_nat (iterations p) < fuel)%nat ->
  total_sleep_ns (trace (task_fn fuel p))
  = iterations p * period_ms p * 1000000.
Proof.
  intros Hn Hfuel. rewrite task_fn_complete by lia.
  unfold trace. cbn [snd].
  rewrite total_sleep_ns_app, total_sleep_ns_passes, length_seqZ.
  cbn [completion total_sleep_ns]. rewrite Z2Nat.id by lia. ring.
Qed.

Lemma task_fn_total_sleep_witness :
  0 <= iterations Driver.B < INT_MAX /\
  total_sleep_ns (trace (task_fn 6 Driver.B)) = 5 * 16 * 1000000.
Proof.
  assert (H1 : 0 <= iterations Driver.B < INT_MAX)
    by (rewrite INT_MAX_val; cbn [iterations Driver.B]; lia).
  assert (H2 : (Z.to_nat (iterations Driver.B) < 6)%nat) by (cbn; lia).
  split; [exact H1 | exact (task_fn_total_sleep Driver.B H1 H2)].
Defined.

Lemma for_loop_thread_actions (fuel : nat) :
  forall (i : Z) (m : task_params_t),
    in_int i -> Forall (thread_action m) (trace (for_loop fuel i m)).
Proof.
  induction fuel as [|fuel IH]; intros i m Hi.
  - constructor.
  - destruct (Z.le_gt_cases i (iterations m)) as [Hle | Hgt].
    + rewrite for_loop_pass by exact Hle. unfold trace at 1. cbn [snd].
      apply Forall_app. split.
      * unfold iteration.
        constructor; [reflexivity|].
        constructor; [split; [reflexivity | split; [exact Hi | exact Hle]]|].
        constructor; [exact I|].
        constructor; [apply sleep_ms_duration | constructor].
      * apply IH, wrap_int_range.
    + rewrite for_loop_leave by lia. constructor.
Qed.

(** X5.  Whatever the descriptor and however long the run, the thread does
    nothing but spin its 100000 turns, print and flush, and ask for sleeps of
    its period.  What it prints bears its own name; an iteration label is an
    [int] and is never above the budget; it never writes the lines of the
    main thread. *)
Theorem task_fn_thread_actions (fuel : nat) (p : task_params_t) :
  Forall (thread_action p) (trace (task_fn fuel p)).
Proof.
  rewrite task_fn_trace. apply Forall_app. split.
  - apply for_loop_thread_actions. int_lia.
  - destruct (value (for_loop fuel 1 p)); [|constructor].
    unfold completion.
    constructor; [reflexivity|]. constructor; [exact I | constructor].
Qed.

(* ================================================================== *)
(** ** More on the driver *)

Section DriverMore.

Import Driver.

Lemma tid_eqb_refl (t : tid) : tid_eqb t t = true.
Proof. destruct t; reflexivity. Qed.

Lemma by_thread_cons (t t' : tid) (a : action) (l : list (tid * action)) :
  by_thread t ((t', a) :: l)
  = if tid_eqb t' t then a :: by_thread t l else by_thread t l.
Proof. unfold by_thread. cbn. destruct (tid_eqb t' t); reflexivity. Qed.

Lemma by_thread_nil_not_in (t : tid) (a : action) (l : list (tid * action)) :
  by_thread t l = [] -> ~ In (t, a) l.
Proof.
  induction l as [|[t' a'] l IH]; intros Hnil Hin; [exact Hin|].
  rewrite by_thread_cons in Hnil. destruct Hin as [Heq | Hin].
  - injection Heq as -> ->. rewrite tid_eqb_refl in Hnil. discriminate.
  - destruct (tid_eqb t' t); [discriminate | exact (IH Hnil Hin)].
Qed.

Lemma log_of_nobody (l : list (tid * action)) :
  by_thread Main l = [] ->
  by_thread ThreadA l = [] ->
  by_thread ThreadB l = [] ->
  l = [].
Proof.
  destruct l as [|[t a] l]; [reflexivity|].
  rewrite !by_thread_cons. destruct t; cbn; discriminate.
Qed.

Lemma one_line_in (line a : action) (l : list (tid * action)) :
  one_line line l -> In (Main, a) l -> a = line.
Proof.
  intros (before & after & -> & Hb & Ha) Hin.
  apply in_app_or in Hin. destruct Hin as [Hin | [Heq | Hin]].
  - destruct (@by_thread_nil_not_in _ _ _ Hb Hin).
  - injection Heq as <-. reflexivity.
  - destruct (@by_thread_nil_not_in _ _ _ Ha Hin).
Qed.

Lemma one_line_has (line : action) (l : list (tid * action)) :
  one_line line l -> In (Main, line) l.
Proof.
  intros (before & after & -> & _). apply in_or_app. right. left. reflexivity.
Qed.

Lemma success_end_in (w : world) (a : action) :
  success_end w -> In (Main, a) (log w) -> a = Puts "SELF_TEST_FAIL".
Proof.
  intros (_ & _ & _ & evs & Hlog & Hq) Hin. rewrite Hlog in Hin.
  apply in_app_or in Hin. destruct Hin as [Hin | [Heq | []]].
  - destruct (@by_thread_nil_not_in _ _ _ Hq Hin).
  - injection Heq as <-. reflexivity.
Qed.

Lemma failure_end_line (w : world) :
  failure_end_a w \/ failure_end_b w ->
  exists s : string, one_line (Perror s) (log w).
Proof.
  intros [(_ & _ & _ & Hl) | (_ & _ & _ & Hl)]; eauto.
Qed.

(** X6.  The exit status of [main] is 0 or 1, and the log tells which: the
    status is 0 exactly when the line [SELF_TEST_FAIL] was written, and 1
    exactly when a [perror] diagnostic was. *)
Theorem main_exit_status_and_log (sched : list choice) (w : world) (code : Z) :
  main sched = Some w ->
  pc w = Exited code ->
  (code = 0 \/ code = 1) /\
  (code = 0 <-> In (Main, Puts "SELF_TEST_FAIL") (log w)) /\
  (code = 1 <-> exists s : string, In (Main, Perror s) (log w)).
Proof.
  intros Hrun Hpc. pose proof (main_inv _ Hrun) as (_ & _ & Hat).
  unfold at_pc in Hat. rewrite Hpc in Hat.
  destruct Hat as [(-> & Hok) | (-> & Hfail)].
  - split; [left; reflexivity|]. split.
    + split; [intros _ | reflexivity].
      destruct Hok as (_ & _ & _ & evs & -> & _).
      apply in_or_app. right. left. reflexivity.
    + split; [discriminate|]. intros [s Hin].
      pose proof (@success_end_in _ _ Hok Hin). discriminate.
  - destruct (@failure_end_line _ Hfail) as [s Hline].
    split; [right; reflexivity|]. split.
    + split; [discriminate|]. intros Hin.
      pose proof (@one_line_in _ _ _ Hline Hin). discriminate.
    + split; [intros _ | reflexivity]. exists s. exact (@one_line_has _ _ Hline).
Qed.

Lemma main_exit_status_and_log_witness :
  main abort_schedule = Some abort_world /\
  pc abort_world = Exited 1 /\
  (exists s : string, In (Main, Perror s) (log abort_world)) /\
  ~ In (Main, Puts "SELF_TEST_FAIL") (log abort_world).
Proof.
  assert (H1 : main abort_schedule = Some abort_world)
    by (vm_compute; reflexivity).
  assert (H2 : pc abort_world = Exited 1) by reflexivity.
  destruct (main_exit_status_and_log abort_schedule H1 H2)
    as (_ & Hzero & Hone).
  split; [exact H1|]. split; [exact H2|].
  split; [exact (proj1 Hone eq_refl)|].
  intros Hin. apply (proj2 Hzero) in Hin. discriminate Hin.
Defined.

(** X7.  In no world that [main] can reach has the main thread written its
    status line while a task still had something to do: if the line is in
    the log, then it is [SELF_TEST_FAIL], both threads have returned, all
    they had to do is in the log, and the main thread stands at its
    [return 0] or has left through it. *)
Theorem main_status_line_after_tasks
  (sched : list choice) (w : world) (s : string) :
  main sched = Some w ->
  In (Main, Puts s) (log w) ->
  s = "SELF_TEST_FAIL" /\
  thread_a w = Some [] /\ thread_b w = Some [] /\
  by_thread ThreadA (log w) = thread_body A /\
  by_thread ThreadB (log w) = thread_body B /\
  (pc w = AtReturn 0 \/ pc w = Exited 0).
Proof.
  intros Hrun Hin. pose proof (main_inv _ Hrun) as (Ha & Hb & Hat).
  assert (Hend : forall code,
             ending code w ->
             s = "SELF_TEST_FAIL" /\ code = 0 /\
             thread_a w = Some [] /\ thread_b w = Some []).
  { intros code [(-> & Hok) | (_ & Hfail)].
    - pose proof (@success_end_in _ _ Hok Hin) as Heq. injection Heq as ->.
      destruct Hok as (Hta & Htb & _). auto.
    - destruct (@failure_end_line _ Hfail) as [msg Hline].
      pose proof (@one_line_in _ _ _ Hline Hin). discriminate. }
  assert (Hfin : s = "SELF_TEST_FAIL" /\
                 thread_a w = Some [] /\ thread_b w = Some [] /\
                 (pc w = AtReturn 0 \/ pc w = Exited 0)).
  { unfold at_pc, quiet in Hat.
    destruct (pc w) eqn:Hpc;
      try (destruct Hat as (_ & _ & _ & Hq);
           destruct (@by_thread_nil_not_in _ _ _ Hq Hin)).
    - destruct (Hend code Hat) as (Hs & -> & Hta & Htb). auto.
    - destruct (Hend code Hat) as (Hs & -> & Hta & Htb). auto. }
  destruct Hfin as (Hs & Hta & Htb & Hpc).
  rewrite Hta in Ha. rewrite Htb in Hb. unfold thread_ok in Ha, Hb.
  rewrite app_nil_r in Ha, Hb. auto 6.
Qed.

Lemma main_status_line_after_tasks_witness :
  main calm_schedule = Some calm_world /\
  In (Main, Puts "SELF_TEST_FAIL") (log calm_world) /\
  thread_a calm_world = Some [] /\ thread_b calm_world = Some [].
Proof.
  assert (H1 : main calm_schedule = Some calm_world)
    by (vm_compute; reflexivity).
  assert (H2 : In (Main, Puts "SELF_TEST_FAIL") (log calm_world)).
  { apply in_rev. left. reflexivity. }
  destruct (main_status_line_after_tasks calm_schedule _ H1 H2)
    as (_ & Hta & Htb & _).
  split; [exact H1|]. split; [exact H2|]. split; [exact Hta | exact Htb].
Defined.

Lemma events_prefix (part rest : list action) :
  events part = firstn (List.length (events part)) (events (part ++ rest)).
Proof.
  rewrite events_app, firstn_app, Nat.sub_diag, firstn_all, firstn_O.
  symmetry. apply app_nil_r.
Qed.

(** X8.  In every world [main] can reach, and so under every interleaving,
    what a thread has written to the log followed by what it has left to do
    is its body: its entries are in its own order.  For its events this
    means that those in the log are the first few of iteration 1, ...,
    iteration 5, done. *)
Theorem main_keeps_thread_order (sched : list choice) (w : world) :
  main sched = Some w ->
  (exists todo_a todo_b : list action,
      by_thread ThreadA (log w) ++ todo_a = thread_body A /\
      by_thread ThreadB (log w) ++ todo_b = thread_body B /\
      (thread_a w = Some todo_a \/
       thread_a w = None /\ todo_a = thread_body A) /\
      (thread_b w = Some todo_b \/
       thread_b w = None /\ todo_b = thread_body B)) /\
  (exists ka kb : nat,
      events (by_thread ThreadA (log w))
      = firstn ka
          [PrintfIteration "TASK_A" 1; PrintfIteration "TASK_A" 2;
           PrintfIteration "TASK_A" 3; PrintfIteration "TASK_A" 4;
           PrintfIteration "TASK_A" 5; PrintfDone "TASK_A"] /\
      events (by_thread ThreadB (log w))
      = firstn kb
          [PrintfIteration "TASK_B" 1; PrintfIteration "TASK_B" 2;
           PrintfIteration "TASK_B" 3; PrintfIteration "TASK_B" 4;
           PrintfIteration "TASK_B" 5; PrintfDone "TASK_B"]).
Proof.
  intros Hrun. pose proof (main_inv _ Hrun) as (Ha & Hb & _).
  assert (Hpa : exists todo_a,
             by_thread ThreadA (log w) ++ todo_a = thread_body A /\
             (thread_a w = Some todo_a \/
              thread_a w = None /\ todo_a = thread_body A)).
  { unfold thread_ok in Ha. destruct (thread_a w) as [todo|].
    - exists todo. auto.
    - exists (thread_body A). rewrite Ha. auto. }
  assert (Hpb : exists todo_b,
             by_thread ThreadB (log w) ++ todo_b = thread_body B /\
             (thread_b w = Some todo_b \/
              thread_b w = None /\ todo_b = thread_body B)).
  { unfold thread_ok in Hb. destruct (thread_b w) as [todo|].
    - exists todo. auto.
    - exists (thread_body B). rewrite Hb. auto. }
  destruct Hpa as (todo_a & Hbody_a & Hleft_a).
  destruct Hpb as (todo_b & Hbody_b & Hleft_b).
  split; [exists todo_a, todo_b; auto|].
  exists (List.length (events (by_thread ThreadA (log w)))),
         (List.length (events (by_thread ThreadB (log w)))).
  split.
  - rewrite (events_prefix (by_thread ThreadA (log w)) todo_a) at 1.
    rewrite Hbody_a. reflexivity.
  - rewrite (events_prefix (by_thread ThreadB (log w)) todo_b) at 1.
    rewrite Hbody_b. reflexivity.
Qed.

Lemma main_keeps_thread_order_witness :
  main abort_schedule = Some abort_world /\
  exists ka : nat,
    events (by_thread ThreadA (log abort_world))
    = firstn ka
        [PrintfIteration "TASK_A" 1; PrintfIteration "TASK_A" 2;
         PrintfIteration "TASK_A" 3; PrintfIteration "TASK_A" 4;
         PrintfIteration "TASK_A" 5; PrintfDone "TASK_A"].
Proof.
  assert (H1 : main abort_schedule = Some abort_world)
    by (vm_compute; reflexivity).
  destruct (main_keeps_thread_order abort_schedule H1)
    as (_ & ka & kb & Hka & _).
  split; [exact H1 | exists ka; exact Hka].
Defined.

Lemma step_enabled (w : world) :
  inv w -> exited w = false ->
  exists (c : choice) (w' : world), step w c = Some w'.
Proof.
  destruct w as [p ta tb cr lg]. unfold inv, at_pc, step, exited, main_step.
  cbn [pc thread_a thread_b creates log].
  intros (_ & _ & Hat) Hex.
  destruct p; try discriminate;
    try (exists (RunMain true); cbn [pthread_create]; eexists; reflexivity).
  - (* AtJoinA: thread A moves, or it has returned and the join goes on *)
    destruct Hat as (Hta & _).
    destruct ta as [[|a todo]|]; [ | | congruence].
    + exists (RunMain true). eexists. reflexivity.
    + exists RunA. eexists. reflexivity.
  - destruct Hat as (_ & Htb & _).
    destruct tb as [[|b todo]|]; [ | | congruence].
    + exists (RunMain true). eexists. reflexivity.
    + exists RunB. eexists. reflexivity.
Qed.

(** X9.  [main] cannot hang and cannot run on for ever: in every world it
    can reach short of the exit some thread can take a step, and no run has
    more than 50 steps.  So under every schedule the process exits. *)
Theorem main_always_exits (sched : list choice) (w : world) :
  main sched = Some w ->
  (List.length sched <= 50)%nat /\
  (exited w = false ->
   exists (c : choice) (w' : world), step w c = Some w').
Proof.
  intros Hrun. split.
  - pose proof (run_measure _ init_inv Hrun) as H.
    change (measure init) with 50%nat in H. lia.
  - apply step_enabled. exact (main_inv _ Hrun).
Qed.

Lemma main_always_exits_witness :
  main calm_schedule = Some calm_world /\
  (List.length calm_schedule <= 50)%nat /\
  exited calm_world = true.
Proof.
  assert (H1 : main calm_schedule = Some calm_world)
    by (vm_compute; reflexivity).
  split; [exact H1|].
  split; [exact (proj1 (main_always_exits calm_schedule H1)) | reflexivity].
Defined.

(** X10.  When the first create fails nothing runs at all: at the exit the
    status is 1 and the log is the one diagnostic of the main thread,
    [perror("pthread_create A")], with no entry of any task; the second
    create was not tried. *)
Theorem main_first_create_fails
  (sched : list choice) (w : world) (code : Z) :
  main sched = Some w ->
  pc w = Exited code ->
  launched w = [] ->
  code = 1 /\
  log w = [(Main, Perror "pthread_create A")] /\
  creates w = [(A, false)].
Proof.
  intros Hrun Hpc Hl. pose proof (main_inv _ Hrun) as (Ha & Hb & Hat).
  unfold at_pc in Hat. rewrite Hpc in Hat. unfold launched in Hl.
  destruct Hat as [(_ & _ & _ & Hcr & _) |
                   (-> & [(Hta & Htb & Hcr & Hline) | (_ & _ & Hcr & _)])];
    try (rewrite Hcr in Hl; discriminate Hl).
  split; [reflexivity|]. split; [|exact Hcr].
  rewrite Hta in Ha. rewrite Htb in Hb. unfold thread_ok in Ha, Hb.
  destruct Hline as (before & after & Hlog & Hqb & Hqa).
  rewrite Hlog in Ha, Hb. rewrite by_thread_app, by_thread_cons in Ha, Hb.
  cbn [tid_eqb] in Ha, Hb.
  apply app_eq_nil in Ha, Hb. destruct Ha as [Hab Haa], Hb as [Hbb Hba].
  rewrite (@log_of_nobody before Hqb Hab Hbb), (@log_of_nobody after Hqa Haa Hba)
    in Hlog.
  exact Hlog.
Qed.

Lemma main_first_create_fails_witness :
  main [RunMain false; RunMain true; RunMain true]
  = Some (mk_world (Exited 1) None None [(A, false)]
            [(Main, Perror "pthread_create A")]) /\
  launched (mk_world (Exited 1) None None [(A, false)]
              [(Main, Perror "pthread_create A")]) = [] /\
  log (mk_world (Exited 1) None None [(A, false)]
         [(Main, Perror "pthread_create A")])
  = [(Main, Perror "pthread_create A")].
Proof.
  assert (H1 : main [RunMain false; RunMain true; RunMain true]
               = Some (mk_world (Exited 1) None None [(A, false)]
                         [(Main, Perror "pthread_create A")]))
    by reflexivity.
  assert (H2 : launched (mk_world (Exited 1) None None [(A, false)]
                           [(Main, Perror "pthread_create A")]) = [])
    by reflexivity.
  split; [exact H1|]. split; [exact H2|].
  exact (proj1 (proj2 (main_first_create_fails _ H1 eq_refl H2))).
Defined.

Lemma run_schedule_of (evs : list (tid * action)) :
  forall (w : world) (todo_a todo_b : list action),
    exited w = false ->
    thread_a w = Some todo_a ->
    thread_b w = Some todo_b ->
    by_thread Main evs = [] ->
    by_thread ThreadA evs = todo_a ->
    by_thread ThreadB evs = todo_b ->
    run (schedule_of evs) w
    = Some {| pc := pc w; thread_a := Some []; thread_b := Some [];
              creates := creates w; log := log w ++ evs |}.
Proof.
  induction evs as [|[t a] evs IH]; intros w todo_a todo_b Hex Hta Htb Hm Ha Hb.
  - cbn in Ha, Hb. subst todo_a todo_b. cbn [schedule_of map run].
    destruct w as [p ta tb cr lg]. cbn [pc thread_a thread_b creates log] in *.
    rewrite Hta, Htb, app_nil_r. reflexivity.
  - rewrite by_thread_cons in Hm, Ha, Hb.
    destruct t; cbn [tid_eqb] in Hm, Ha, Hb; [discriminate Hm | | ].
    + cbn [schedule_of map fst run]. unfold step. rewrite Hex, Hta, <- Ha.
      fold (schedule_of evs).
      rewrite (IH _ (by_thread ThreadA evs) todo_b)
        by (try reflexivity; assumption).
      cbn [pc thread_a thread_b creates log]. rewrite <- app_assoc.
      reflexivity.
    + cbn [schedule_of map fst run]. unfold step. rewrite Hex, Htb, <- Hb.
      fold (schedule_of evs).
      rewrite (IH _ todo_a (by_thread ThreadB evs))
        by (try reflexivity; assumption).
      cbn [pc thread_a thread_b creates log]. rewrite <- app_assoc.
      reflexivity.
Qed.

(** X11.  Between the two tasks every order is possible.  Take any sequence
    of entries in which the entries of thread A are its body in order and
    those of thread B are its body in order: there is a run of [main] that
    writes exactly this sequence, then the line [SELF_TEST_FAIL], and exits
    with status 0. *)
Theorem main_any_interleaving (evs : list (tid * action)) :
  by_thread Main evs = [] ->
  by_thread ThreadA evs = thread_body A ->
  by_thread ThreadB evs = thread_body B ->
  exists w : world,
    main ([RunMain true; RunMain true] ++ schedule_of evs
          ++ repeat (RunMain true) 4) = Some w /\
    pc w = Exited 0 /\
    log w = evs ++ [(Main, Puts "SELF_TEST_FAIL")].
Proof.
  intros Hm Ha Hb. unfold main.
  change (run ([RunMain true; RunMain true] ++ schedule_of evs
               ++ repeat (RunMain true) 4) init)
    with (run (schedule_of evs ++ repeat (RunMain true) 4)
            (mk_world AtJoinA (Some (thread_body A)) (Some (thread_body B))
               [(A, true); (B, true)] [])).
  rewrite run_app.
  rewrite (@run_schedule_of evs _ (thread_body A) (thread_body B))
    by (try reflexivity; assumption).
  eexists. split; [reflexivity|]. split; reflexivity.
Qed.

Lemma main_any_interleaving_witness :
  by_thread ThreadB
    (map (pair ThreadB) (thread_body B) ++ map (pair ThreadA) (thread_body A))
  = thread_body B /\
  exists w : world,
    pc w = Exited 0 /\
    log w = (map (pair ThreadB) (thread_body B)
             ++ map (pair ThreadA) (thread_body A))
            ++ [(Main, Puts "SELF_TEST_FAIL")].
Proof.
  assert (H0 : by_thread Main
                 (map (pair ThreadB) (thread_body B)
                  ++ map (pair ThreadA) (thread_body A)) = [])
    by (vm_compute; reflexivity).
  assert (H1 : by_thread ThreadA
                 (map (pair ThreadB) (thread_body B)
                  ++ map (pair ThreadA) (thread_body A)) = thread_body A)
    by (vm_compute; reflexivity).
  assert (H2 : by_thread ThreadB
                 (map (pair ThreadB) (thread_body B)
                  ++ map (pair ThreadA) (thread_body A)) = thread_body B)
    by (vm_compute; reflexivity).
  destruct (main_any_interleaving _ H0 H1 H2) as (w & _ & Hpc & Hlog).
  split; [exact H2|]. exists w. split; [exact Hpc | exact Hlog].
Defined.

End DriverMore.
